(** * pymc_console: the MeshCore command extractor and the mesh_cli patcher

  A shallow embedding of [scripts/parse_meshcore_cli.py] and
  [patches/mesh_cli_enhancements.py].

  Text is a [string]: a sequence of characters with code points below
  256, the character with code [n] being Python's [chr(n)].  Python's
  [None] is [None] of an [option]; a [dict] used as a record is a
  [Record]; the [dict] built by [parse_prefs_struct] is a [gmap]. *)

From stdpp Require Import gmap strings list.
From Stdlib Require Import Ascii ZArith Lia Sorted.

Local Open Scope string_scope.
Local Open Scope list_scope.
Local Open Scope nat_scope.

(** ** Python [str] operations *)

Module PyStr.

(** The double quote and the line feed, which a literal cannot hold. *)
Definition dq : string := String "034"%char "".
Definition nl : string := String "010"%char "".

(** [q s] is [s] between double quotes. *)
Definition q (s : string) : string := dq +:+ s +:+ dq.

(** The delimiter of a docstring, and the concatenation of the pieces of
    one line. *)
Definition tq : string := dq +:+ dq +:+ dq.
Definition cat (parts : list string) : string := String.concat "" parts.

(** [unlines ls] is ['\n'.join(ls)]. *)
Definition unlines (ls : list string) : string := String.concat nl ls.

(** [str.isspace] on one character, which is also the class [\s] of
    [re] on [str] patterns: TAB..CR, FS..US, SPACE, NEL and NBSP. *)
Definition isspace (c : ascii) : bool :=
  let n := N_of_ascii c in
  ((9 <=? n) && (n <=? 13) || (28 <=? n) && (n <=? 32)
   || (n =? 133) || (n =? 160))%N.

(** The class [\d] of [re]: decimal digits. *)
Definition isdecimal (c : ascii) : bool :=
  let n := N_of_ascii c in ((48 <=? n) && (n <=? 57))%N.

(** The class [\w] of [re]: [str.isalnum] or the underscore. *)
Definition isword (c : ascii) : bool :=
  let n := N_of_ascii c in
  (isdecimal c
   || (65 <=? n) && (n <=? 90) || (97 <=? n) && (n <=? 122) || (n =? 95)
   || (n =? 170) || (n =? 178) || (n =? 179) || (n =? 181)
   || (n =? 185) || (n =? 186) || (188 <=? n) && (n <=? 190)
   || (192 <=? n) && (n <=? 214) || (216 <=? n) && (n <=? 246)
   || (248 <=? n))%N.

(** [s.startswith(p)] *)
Fixpoint startswith (s p : string) : bool :=
  match p, s with
  | "", _ => true
  | String a p', String b s' => Ascii.eqb a b && startswith s' p'
  | String _ _, "" => false
  end.

(** [sub in s] *)
Fixpoint contains (sub s : string) : bool :=
  startswith s sub
  || match s with
     | String _ s' => contains sub s'
     | "" => false
     end.

(** [c in s] for one character [c]. *)
Definition has_char (c : ascii) (s : string) : bool :=
  contains (String c "") s.

(** [s[n:]] and [s[:n]] for [0 <= n]. *)
Fixpoint drop_str (n : nat) (s : string) : string :=
  match n, s with
  | S k, String _ s' => drop_str k s'
  | _, _ => s
  end.

Fixpoint take_str (n : nat) (s : string) : string :=
  match n, s with
  | S k, String c s' => String c (take_str k s')
  | _, _ => ""
  end.

(** [s.lstrip()], [s.rstrip()] and [s.strip()]. *)
Fixpoint lstrip (s : string) : string :=
  match s with
  | String c s' => if isspace c then lstrip s' else s
  | "" => ""
  end.

Fixpoint rstrip (s : string) : string :=
  match s with
  | String c s' =>
      match rstrip s' with
      | "" => if isspace c then "" else String c ""
      | r => String c r
      end
  | "" => ""
  end.

Definition strip (s : string) : string := rstrip (lstrip s).

(** [s.split('\n')]: never empty, [''.split('\n') == ['']]. *)
Fixpoint split_lines (s : string) : list string :=
  match s with
  | "" => [""]
  | String c s' =>
      if Ascii.eqb c "010"%char then "" :: split_lines s'
      else match split_lines s' with
           | l :: ls => String c l :: ls
           | [] => [String c ""]
           end
  end.

(** [s.find(sub)]: the least index of an occurrence, [-1] if none. *)
Fixpoint find_from (sub s : string) (i : nat) : Z :=
  if startswith s sub then Z.of_nat i
  else match s with
       | String _ s' => find_from sub s' (S i)
       | "" => (-1)%Z
       end.

Definition find (s sub : string) : Z := find_from sub s 0.

(** [s.find(sub, start)] for [0 <= start]; past the end there is no
    occurrence, except of the empty string at the very end. *)
Definition find_at (s sub : string) (start : nat) : Z :=
  if (String.length s <? start)%nat then (-1)%Z
  else find_from sub (drop_str start s) start.

(** [s.rfind(sub)]: the greatest index of an occurrence, [-1] if none. *)
Fixpoint rfind_from (sub s : string) (i : nat) : Z :=
  let later := match s with
               | String _ s' => rfind_from sub s' (S i)
               | "" => (-1)%Z
               end in
  if (0 <=? later)%Z then later
  else if startswith s sub then Z.of_nat i else (-1)%Z.

Definition rfind (s sub : string) : Z := rfind_from sub s 0.

(** Left-to-right substitution of non-overlapping occurrences.  [m s]
    tells whether an occurrence starts at the head of [s], giving its
    length and what replaces it.  [skip] counts the characters of the
    current occurrence still to be dropped.  After an empty occurrence
    the next character is copied, as [str.replace] and [re.sub] do. *)
Fixpoint subst_by (m : string → option (nat * string)) (s : string)
    (skip : nat) : string :=
  match skip with
  | S k =>
      match s with
      | String _ s' => subst_by m s' k
      | "" => ""
      end
  | 0 =>
      match m s with
      | Some (S k, new) =>
          new +:+ match s with
                  | String _ s' => subst_by m s' k
                  | "" => ""
                  end
      | Some (0, new) =>
          new +:+ match s with
                  | String c s' => String c (subst_by m s' 0)
                  | "" => ""
                  end
      | None =>
          match s with
          | String c s' => String c (subst_by m s' 0)
          | "" => ""
          end
      end
  end.

(** [s.replace(old, new)] *)
Definition replace (s old new : string) : string :=
  subst_by (λ t, if startswith t old
                 then Some (String.length old, new) else None) s 0.

(** [int(s)] on a string of decimal digits. *)
Definition digit_val (c : ascii) : N := (N_of_ascii c - 48)%N.

Fixpoint int_acc (s : string) (acc : N) : N :=
  match s with
  | String c s' => int_acc s' (10 * acc + digit_val c)%N
  | "" => acc
  end.

Definition int (s : string) : N := int_acc s 0%N.

(** Python's truth value of an [Optional[str]]: [None] and [''] are
    false. *)
Definition truthy (o : option string) : bool :=
  match o with
  | Some (String _ _) => true
  | _ => false
  end.

End PyStr.

(** ** The fragment of [re] the scripts use

  A backtracking matcher with Python's search order: alternatives left
  to right, greedy repetition giving back one character at a time, the
  leftmost start position first.  Repetition is only ever applied to a
  single character class in the scripts' patterns, and [Opt] covers the
  optional group and the optional characters. *)

Module Re.
Import PyStr.

Inductive cclass : Type :=
| CSpace                (* \s *)
| CDigit                (* \d *)
| CWord                 (* \w *)
| CDot                  (* .  without DOTALL: anything but a line feed *)
| CNot (c : ascii)      (* [^c] *)
| CChar (c : ascii).    (* c *)

Definition cmatch (cl : cclass) (a : ascii) : bool :=
  match cl with
  | CSpace => isspace a
  | CDigit => isdecimal a
  | CWord => isword a
  | CDot => negb (Ascii.eqb a "010"%char)
  | CNot c => negb (Ascii.eqb a c)
  | CChar c => Ascii.eqb a c
  end.

Inductive regex : Type :=
| Lit (l : string)              (* literal text *)
| Cls (cl : cclass)             (* one character of a class *)
| Star (cl : cclass)            (* cl* *)
| Plus (cl : cclass)            (* cl+ *)
| Opt (r : regex)               (* r? *)
| Alt (r1 r2 : regex)           (* r1|r2 *)
| Seq (r1 r2 : regex)           (* r1 r2 *)
| Group (n : nat) (r : regex).  (* the n-th capturing group *)

(** The groups that took part in a match, latest binding first. *)
Definition captures : Type := list (nat * string).

Fixpoint group (n : nat) (caps : captures) : option string :=
  match caps with
  | (k, v) :: caps' => if Nat.eqb k n then Some v else group n caps'
  | [] => None
  end.

(** What is left of [s] after the prefix [p], when [p] is one. *)
Fixpoint after_prefix (p s : string) : option string :=
  match p, s with
  | "", _ => Some s
  | String a p', String b s' =>
      if Ascii.eqb a b then after_prefix p' s' else None
  | String _ _, "" => None
  end.

Section Matcher.
Context {A : Type}.

(** Greedy [cl*]: the longest run first, then shorter ones. *)
Fixpoint star (cl : cclass) (s : string) (k : string → option A)
    : option A :=
  match s with
  | String a s' =>
      if cmatch cl a
      then match star cl s' k with
           | Some x => Some x
           | None => k s
           end
      else k s
  | "" => k s
  end.

(** [rmatch r s caps k]: match [r] at the head of [s], then hand the
    rest of the text and the groups to [k]; [None] from [k] makes the
    matcher backtrack. *)
Fixpoint rmatch (r : regex) (s : string) (caps : captures)
    (k : string → captures → option A) : option A :=
  match r with
  | Lit l =>
      match after_prefix l s with
      | Some s' => k s' caps
      | None => None
      end
  | Cls cl =>
      match s with
      | String a s' => if cmatch cl a then k s' caps else None
      | "" => None
      end
  | Star cl => star cl s (λ s', k s' caps)
  | Plus cl =>
      match s with
      | String a s' =>
          if cmatch cl a then star cl s' (λ s'', k s'' caps) else None
      | "" => None
      end
  | Opt r1 =>
      match rmatch r1 s caps k with
      | Some x => Some x
      | None => k s caps
      end
  | Alt r1 r2 =>
      match rmatch r1 s caps k with
      | Some x => Some x
      | None => rmatch r2 s caps k
      end
  | Seq r1 r2 => rmatch r1 s caps (λ s' caps', rmatch r2 s' caps' k)
  | Group n r1 =>
      rmatch r1 s caps
        (λ s' caps',
           k s' ((n, take_str (String.length s - String.length s') s)
                   :: caps'))
  end.
End Matcher.

(** A match object: where it starts, the text matched, the text after
    it, and its groups. *)
Record mobj : Type := MObj {
  m_start : nat;
  m_text : string;
  m_rest : string;
  m_caps : captures
}.

(** [pattern.match(s)] at the head of [s]: consumed length and groups. *)
Definition match_here (r : regex) (s : string) : option (nat * captures) :=
  rmatch r s [] (λ s' caps, Some (String.length s - String.length s', caps)).

(** [pattern.search(s)], scanning start positions from [i] on. *)
Fixpoint search_from (r : regex) (s : string) (i : nat) : option mobj :=
  match match_here r s with
  | Some (n, caps) => Some (MObj i (take_str n s) (drop_str n s) caps)
  | None =>
      match s with
      | String _ s' => search_from r s' (S i)
      | "" => None
      end
  end.

Definition search (r : regex) (s : string) : option mobj :=
  search_from r s 0.

(** [m.group(n)] of a group that took part; [''] stands in for a group
    that did not, which the callers test beforehand. *)
Definition group_str (n : nat) (m : mobj) : string :=
  default "" (group n (m_caps m)).

(** [re.sub(pattern, repl, s)] with [repl] given as a function of the
    groups. *)
Definition sub (r : regex) (repl : captures → string) (s : string)
    : string :=
  subst_by (λ t, match match_here r t with
                 | Some (n, caps) => Some (n, repl caps)
                 | None => None
                 end) s 0.

(** [pattern.finditer(s)]: the non-overlapping matches, left to right. *)
Fixpoint finditer_go (r : regex) (s : string) (i skip : nat)
    : list mobj :=
  match skip with
  | S k =>
      match s with
      | String _ s' => finditer_go r s' (S i) k
      | "" => []
      end
  | 0 =>
      match match_here r s with
      | Some (n, caps) =>
          MObj i (take_str n s) (drop_str n s) caps
          :: match s with
             | String _ s' => finditer_go r s' (S i) (Nat.pred n)
             | "" => []
             end
      | None =>
          match s with
          | String _ s' => finditer_go r s' (S i) 0
          | "" => []
          end
      end
  end.

Definition finditer (r : regex) (s : string) : list mobj :=
  finditer_go r s 0 0.

Declare Scope regex_scope.
Delimit Scope regex_scope with re.
Infix "⋅" := Seq (at level 41, right associativity) : regex_scope.

End Re.

(** ** scripts/parse_meshcore_cli.py *)

Module Extractor.
Import PyStr Re.
Local Open Scope regex_scope.

(** A command descriptor: the [dict] appended to [commands]. *)
Record param : Type := Param {
  p_name : string;
  p_type : string
}.

Record command : Type := Command {
  name : string;
  category : string;
  params : list param;
  response_format : option string;
  description : string;
  serial_only : bool;
  has_param : bool
}.

(** [x in (a, b, ...)] on strings. *)
Definition mem (x : string) (l : list string) : bool :=
  existsb (String.eqb x) l.

(** [\s*] *)
Definition ws : regex := Star CSpace.

(** The patterns.  The comments spell them token by token, blanks apart,
    with [Q] for the double quote.

    [memcmp \s* \( \s* (command|config) \s* , \s* Q ([^Q]+) Q \s* , \s* (\d+) \s* \)] *)
Definition cmd_pattern : regex :=
  Lit "memcmp" ⋅ ws ⋅ Lit "(" ⋅ ws
  ⋅ Group 1 (Alt (Lit "command") (Lit "config")) ⋅ ws ⋅ Lit "," ⋅ ws
  ⋅ Lit dq ⋅ Group 2 (Plus (CNot "034")) ⋅ Lit dq ⋅ ws ⋅ Lit "," ⋅ ws
  ⋅ Group 3 (Plus CDigit) ⋅ ws ⋅ Lit ")".

(** [sprintf \s* \( \s* reply \s* , \s* Q ([^Q]* ) Q] *)
Definition reply_pattern : regex :=
  Lit "sprintf" ⋅ ws ⋅ Lit "(" ⋅ ws ⋅ Lit "reply" ⋅ ws ⋅ Lit "," ⋅ ws
  ⋅ Lit dq ⋅ Group 1 (Star (CNot "034")) ⋅ Lit dq.

(** [strcpy \s* \( \s* reply \s* , \s* Q ([^Q]* ) Q] *)
Definition strcpy_pattern : regex :=
  Lit "strcpy" ⋅ ws ⋅ Lit "(" ⋅ ws ⋅ Lit "reply" ⋅ ws ⋅ Lit "," ⋅ ws
  ⋅ Lit dq ⋅ Group 1 (Star (CNot "034")) ⋅ Lit dq.

(** [sender_timestamp \s* == \s* 0] *)
Definition serial_only_pattern : regex :=
  Lit "sender_timestamp" ⋅ ws ⋅ Lit "==" ⋅ ws ⋅ Lit "0".

(** [classify_command] *)
Definition classify_command (cmd : string) : string :=
  if startswith cmd "get " then "get"
  else if startswith cmd "set " then "set"
  else if startswith cmd "log" then "logging"
  else if startswith cmd "gps" then "gps"
  else if startswith cmd "sensor" then "sensor"
  else if startswith cmd "bridge" then "bridge"
  else if startswith cmd "stats" then "stats"
  else if mem cmd ["neighbors"; "neighbor.remove"] then "neighbor"
  else if mem cmd ["reboot"; "advert"; "clock"; "clock sync"; "time"; "ver";
                   "board"; "erase"; "start ota"; "clear stats"; "password"]
  then "system"
  else if String.eqb cmd "tempradio" then "radio"
  else "other".

(** [is_serial_only_command] *)
Definition is_serial_only_command (cmd : string) : bool :=
  mem cmd ["get prv.key"; "set prv.key"; "erase"; "log";
           "stats-packets"; "stats-radio"; "stats-core";
           "set freq"].

(** The four specifiers of [clean_response_format]:
    [%0?2?d], [%s], [%u] and [% .? \d* f]. *)
Definition int_spec : regex :=
  Lit "%" ⋅ Opt (Lit "0") ⋅ Opt (Lit "2") ⋅ Lit "d".
Definition str_spec : regex := Lit "%s".
Definition uint_spec : regex := Lit "%u".
Definition float_spec : regex :=
  Lit "%" ⋅ Opt (Cls CDot) ⋅ Star CDigit ⋅ Lit "f".

(** [clean_response_format] *)
Definition clean_response_format (fmt : option string) : option string :=
  match fmt with
  | Some f =>
      if negb (truthy fmt) then None
      else
        let f := sub int_spec (λ _, "{int}") f in
        let f := sub str_spec (λ _, "{str}") f in
        let f := sub uint_spec (λ _, "{uint}") f in
        let f := sub float_spec (λ _, "{float}") f in
        Some f
  | None => None
  end.

(** The table of [generate_description]. *)
Definition descriptions : list (string * string) :=
  [
    ("reboot", "Reboot the device");
    ("advert", "Send self advertisement");
    ("clock", "Display current time");
    ("clock sync", "Sync clock from sender timestamp");
    ("time", "Set time to epoch seconds");
    ("ver", "Show firmware version and build date");
    ("board", "Show board/manufacturer name");
    ("erase", "Erase filesystem (serial only)");
    ("start ota", "Start OTA firmware update");
    ("clear stats", "Reset statistics counters");
    ("password", "Change admin password");
    ("get af", "Get airtime factor");
    ("get name", "Get node name");
    ("get repeat", "Get repeat/forward status (on/off)");
    ("get lat", "Get latitude");
    ("get lon", "Get longitude");
    ("get radio", "Get radio params (freq,bw,sf,cr)");
    ("get freq", "Get frequency (MHz)");
    ("get tx", "Get TX power (dBm)");
    ("get public.key", "Get public key (hex)");
    ("get prv.key", "Get private key (serial only)");
    ("get role", "Get device role");
    ("get rxdelay", "Get RX delay base");
    ("get txdelay", "Get TX delay factor");
    ("get direct.txdelay", "Get direct TX delay factor");
    ("get flood.max", "Get max flood hops");
    ("get guest.password", "Get guest password");
    ("get allow.read.only", "Get read-only access setting");
    ("get advert.interval", "Get local advert interval (minutes)");
    ("get flood.advert.interval", "Get flood advert interval (hours)");
    ("get int.thresh", "Get interference threshold");
    ("get agc.reset.interval", "Get AGC reset interval (seconds)");
    ("get multi.acks", "Get multi-ack setting");
    ("get adc.multiplier", "Get ADC multiplier for battery");
    ("get bridge.type", "Get bridge type (rs232/espnow/none)");
    ("get bridge.enabled", "Get bridge enabled status");
    ("get bridge.delay", "Get bridge delay (ms)");
    ("get bridge.source", "Get bridge packet source");
    ("get bridge.baud", "Get bridge baud rate");
    ("get bridge.channel", "Get bridge channel (ESP-NOW)");
    ("get bridge.secret", "Get bridge encryption secret");
    ("set af", "Set airtime factor (0-9)");
    ("set name", "Set node name");
    ("set repeat", "Set repeat/forward (on/off)");
    ("set lat", "Set latitude");
    ("set lon", "Set longitude");
    ("set radio", "Set radio params (freq bw sf cr)");
    ("set freq", "Set frequency MHz (serial only, reboot required)");
    ("set tx", "Set TX power (dBm)");
    ("set prv.key", "Set private key (serial only)");
    ("set rxdelay", "Set RX delay base");
    ("set txdelay", "Set TX delay factor");
    ("set direct.txdelay", "Set direct TX delay factor");
    ("set flood.max", "Set max flood hops (0-64)");
    ("set guest.password", "Set guest password");
    ("set allow.read.only", "Set read-only access (on/off)");
    ("set advert.interval", "Set local advert interval (60-240 min, 0=off)");
    ("set flood.advert.interval", "Set flood advert interval (3-48 hours, 0=off)");
    ("set int.thresh", "Set interference threshold");
    ("set agc.reset.interval", "Set AGC reset interval (seconds, rounded to 4)");
    ("set multi.acks", "Set multi-ack (0/1)");
    ("set adc.multiplier", "Set ADC multiplier");
    ("set bridge.enabled", "Enable/disable bridge");
    ("set bridge.delay", "Set bridge delay (0-10000 ms)");
    ("set bridge.source", "Set bridge source (rx/tx)");
    ("set bridge.baud", "Set bridge baud (9600-115200)");
    ("set bridge.channel", "Set bridge channel (1-14)");
    ("set bridge.secret", "Set bridge encryption secret");
    ("neighbors", "List neighbors");
    ("neighbor.remove", "Remove neighbor by pubkey");
    ("tempradio", "Apply temporary radio params (freq bw sf cr timeout_mins)");
    ("log", "Dump log file (serial only)");
    ("log start", "Start packet logging");
    ("log stop", "Stop packet logging");
    ("log erase", "Erase log file");
    ("stats-packets", "Show packet statistics (serial only)");
    ("stats-radio", "Show radio statistics (serial only)");
    ("stats-core", "Show core statistics (serial only)");
    ("sensor get", "Get sensor/custom variable value");
    ("sensor set", "Set sensor/custom variable value");
    ("sensor list", "List all sensor/custom variables");
    ("gps", "Show GPS status");
    ("gps on", "Enable GPS");
    ("gps off", "Disable GPS");
    ("gps sync", "Sync time from GPS");
    ("gps setloc", "Set node location from GPS");
    ("gps advert", "Get/set GPS advert location policy")
  ].
(** [descriptions.get(cmd, default)] *)
Fixpoint dict_get (d : list (string * string)) (k dflt : string) : string :=
  match d with
  | (k', v) :: d' => if String.eqb k' k then v else dict_get d' k dflt
  | [] => dflt
  end.

(** [generate_description] *)
Definition generate_description (cmd : string) : string :=
  dict_get descriptions cmd ("Execute " +:+ cmd +:+ " command").

(** The scanning state of [parse_commands] besides [commands]. *)
Record scan : Type := Scan {
  current_category : option string;
  in_get_block : bool;
  in_set_block : bool;
  serial_only_context : bool
}.

Definition scan0 : scan := Scan None false false false.

(** [lines[j]] for [j] in range. *)
Definition item (lines : list string) (j : nat) : string :=
  default "" (lines !! j).

(** Lines 92-109: the serial-only marker and the get/set blocks. *)
Definition track (line : string) (st : scan) : scan :=
  let serial :=
    match search serial_only_pattern line with
    | Some _ => true
    | None => serial_only_context st
    end in
  if contains "GET commands" line
     || contains ("memcmp(command, " +:+ q "get " +:+ ", 4)") line
  then Scan (Some "get") true false serial
  else if contains "SET commands" line
          || contains ("memcmp(command, " +:+ q "set " +:+ ", 4)") line
  then Scan (Some "set") false true serial
  else if in_get_block st && contains "} else if (memcmp(command" line
          && negb (contains "get " line)
  then Scan None false (in_set_block st) serial
  else if in_set_block st && contains "} else if (memcmp(command" line
          && negb (contains "set " line)
  then Scan None (in_get_block st) false serial
  else Scan (current_category st) (in_get_block st) (in_set_block st) serial.

(** Lines 174-176: a block boundary ends the serial-only context. *)
Definition leave_block (line : string) (st : scan) : scan :=
  if startswith (strip line) "} else"
  then Scan (current_category st) (in_get_block st) (in_set_block st) false
  else st.

(** Lines 140-157: the body of the lookahead loop, on the pair
    [(response_format, params)]. *)
Definition scan_context (acc : option string * list param)
    (context_line : string) : option string * list param :=
  let '(response_format, params) := acc in
  let response_format :=
    match search reply_pattern context_line with
    | Some reply_match =>
        if negb (truthy response_format)
        then Some (group_str 1 reply_match) else response_format
    | None => response_format
    end in
  let response_format :=
    match search strcpy_pattern context_line with
    | Some strcpy_match =>
        if negb (truthy response_format)
        then Some (group_str 1 strcpy_match) else response_format
    | None => response_format
    end in
  let params :=
    if contains "atof(" context_line
    then (params ++ [Param "value" "float"])%list
    else if contains "atoi(" context_line || contains "_atoi(" context_line
    then (params ++ [Param "value" "int"])%list
    else if contains "strncpy(" context_line
            || contains "StrHelper::strncpy(" context_line
    then (params ++ [Param "value" "string"])%list
    else params in
  (response_format, params).

(** [range(i, min(i + 15, n))] *)
Definition window (i n : nat) : list nat := seq i (Nat.min (i + 15) n - i).

(** Lines 134-157: the lookahead from line [i]. *)
Definition lookahead (lines : list string) (i : nat)
    : option string * list param :=
  fold_left (λ acc j, scan_context acc (item lines j))
            (window i (length lines)) (None, []).

(** Lines 114-131: the full command name and its category. *)
Definition full_command (st : scan) (var_name cmd_str : string)
    : string * string :=
  if String.eqb var_name "config" then
    if in_get_block st then ("get " +:+ strip cmd_str, "get")
    else if in_set_block st then ("set " +:+ strip cmd_str, "set")
    else (strip cmd_str, "config")
  else (strip cmd_str, classify_command (strip cmd_str)).

(** Lines 114-172: the descriptor built for the match [m] on line [i];
    [cmd_len] is computed by the script and never used. *)
Definition describe (lines : list string) (i : nat) (st : scan) (m : mobj)
    : command :=
  let var_name := group_str 1 m in
  let cmd_str := group_str 2 m in
  let '(full_cmd, category) := full_command st var_name cmd_str in
  let '(response_format, params) := lookahead lines i in
  let is_serial_only :=
    serial_only_context st || is_serial_only_command full_cmd in
  {| name := full_cmd;
     category := category;
     params := params;
     response_format := clean_response_format response_format;
     description := generate_description full_cmd;
     serial_only := is_serial_only;
     has_param := has_char " " cmd_str || (0 <? length params)%nat |}.

(** [any(c['name'] == full_cmd for c in commands)] *)
Definition known (full_cmd : string) (commands : list command) : bool :=
  existsb (λ c, String.eqb (name c) full_cmd) commands.

(** Lines 163-172: append unless the name is already there. *)
Definition add_command (d : command) (commands : list command)
    : list command :=
  if negb (known (name d) commands) then (commands ++ [d])%list else commands.

(** Lines 89-178: one turn of the [while] loop, at index [i]. *)
Definition body (lines : list string) (acc : scan * list command) (i : nat)
    : scan * list command :=
  let '(st, commands) := acc in
  let line := item lines i in
  let st := track line st in
  let commands :=
    match search cmd_pattern line with
    | Some m => add_command (describe lines i st m) commands
    | None => commands
    end in
  (leave_block line st, commands).

(** [parse_commands]: [i] runs over [0 .. len(lines) - 1]. *)
Definition parse_lines (lines : list string) : list command :=
  snd (fold_left (body lines) (seq 0 (length lines)) (scan0, [])).

Definition parse_commands (cpp_source : string) : list command :=
  parse_lines (split_lines cpp_source).

(** A field of [NodePrefs]: the inner [dict] of [parse_prefs_struct]. *)
Record field : Type := Field {
  f_type : string;
  array_size : option N
}.

(** [struct NodePrefs \s* \{ ([^}]+) \}], where the blank in the name is
    part of the pattern. *)
Definition struct_pattern : regex :=
  Lit "struct NodePrefs" ⋅ ws ⋅ Lit "{" ⋅ Group 1 (Plus (CNot "}")) ⋅ Lit "}".

(** [(float|double|char|uint8_t|uint16_t|uint32_t|int) \s+ (\w+) (?: \[ (\d+) \] )?] *)
Definition field_pattern : regex :=
  Group 1 (Alt (Lit "float") (Alt (Lit "double") (Alt (Lit "char")
           (Alt (Lit "uint8_t") (Alt (Lit "uint16_t") (Alt (Lit "uint32_t")
           (Lit "int")))))))
  ⋅ Plus CSpace ⋅ Group 2 (Plus CWord)
  ⋅ Opt (Lit "[" ⋅ Group 3 (Plus CDigit) ⋅ Lit "]").

(** Lines 354-361: one field entered into [prefs]. *)
Definition add_field (prefs : gmap string field) (m : mobj)
    : gmap string field :=
  let field_type := group_str 1 m in
  let field_name := group_str 2 m in
  let array_size := group 3 (m_caps m) in
  <[field_name := {| f_type := field_type;
                     array_size := if truthy array_size
                                   then int <$> array_size else None |}]>
    prefs.

(** [parse_prefs_struct] *)
Definition parse_prefs_struct (header_source : string)
    : gmap string field :=
  match search struct_pattern header_source with
  | Some struct_match =>
      let struct_body := group_str 1 struct_match in
      fold_left add_field (finditer field_pattern struct_body) ∅
  | None => ∅
  end.

End Extractor.

(** ** Notions the statements about the extractor are phrased with *)

Module Scan.
Import PyStr Re Extractor.

(** The scanning state on entry to turn [i] of the loop. *)
Definition scan_before (lines : list string) (i : nat) : scan :=
  fst (fold_left (body lines) (seq 0 i) (scan0, [])).

(** The match of the command token on line [i]. *)
Definition token (lines : list string) (i : nat) : option mobj :=
  search cmd_pattern (item lines i).

(** The descriptor built at line [i], if the line holds a command token:
    what turn [i] hands to [add_command]. *)
Definition candidate (lines : list string) (i : nat) : option command :=
  match token lines i with
  | Some m =>
      Some (describe lines i (track (item lines i) (scan_before lines i)) m)
  | None => None
  end.

(** The descriptors of all matches, in line order. *)
Definition candidates (lines : list string) : list command :=
  omap (candidate lines) (seq 0 (length lines)).

(** The first element of [cs] named [n]. *)
Definition first_named (n : string) (cs : list command) : option command :=
  List.find (λ c, String.eqb (name c) n) cs.

(** The lines of the lookahead window of line [i]. *)
Definition window_lines (lines : list string) (i : nat) : list string :=
  take 15 (drop i lines).

(** The closed set of category labels. *)
Definition categories : list string :=
  ["get"; "set"; "logging"; "gps"; "sensor"; "bridge"; "stats";
   "neighbor"; "system"; "radio"; "config"; "other"].

End Scan.

(** ** The rules as the code applies them *)

Module Rules.
Import PyStr Re Extractor.

(** [s.endswith(' ')]: the literal carries a trailing space. *)
Fixpoint trailing_space (s : string) : bool :=
  match s with
  | "" => false
  | String c "" => Ascii.eqb c " "
  | String _ s' => trailing_space s'
  end.

(** The parameter entry a window line gives rise to: the first of the
    three tests of lines 152-157 that the line passes decides. *)
Definition conversion (line : string) : option param :=
  if contains "atof(" line then Some (Param "value" "float")
  else if contains "atoi(" line || contains "_atoi(" line
  then Some (Param "value" "int")
  else if contains "strncpy(" line || contains "StrHelper::strncpy(" line
  then Some (Param "value" "string")
  else None.

(** The reply templates a window line offers, in the order the loop
    looks at them: the leftmost [sprintf] to [reply], then the leftmost
    [strcpy] to [reply]. *)
Definition reply_templates (line : string) : list string :=
  match search reply_pattern line with
  | Some m => [group_str 1 m]
  | None => []
  end
  ++ match search strcpy_pattern line with
     | Some m => [group_str 1 m]
     | None => []
     end.

Definition nonempty (s : string) : bool :=
  match s with
  | "" => false
  | String _ _ => true
  end.

(** Lines 144-145 and 148-149: a template is taken unless a non-empty
    one is held. *)
Definition keep (held : option string) (t : string) : option string :=
  if negb (truthy held) then Some t else held.

(** The four specifiers, none of which occurs in a normalized format. *)
Definition specifiers : list regex :=
  [int_spec; str_spec; uint_spec; float_spec].

(** A pattern that opens with the literal [l]. *)
Definition opens_with (l : string) (r : regex) : Prop :=
  r = Lit l ∨ ∃ r', r = Seq (Lit l) r'.

End Rules.

(** ** Sample inputs *)

Module Samples.
Import PyStr Extractor.

(** A branch of the command dispatch:
    [} else if (memcmp(var, Q lit Q, n) == 0) {] *)
Definition cmd_line (var lit n : string) : string :=
  cat ["  } else if (memcmp("; var; ", "; q lit; ", "; n; ") == 0) {"].

(** A literal with an inner space and no trailing one. *)
Definition clock_sync : string :=
  cmd_line "command" "clock sync" "10".

Definition clock_sync_command : command :=
  {| name := "clock sync";
     category := "system";
     params := [];
     response_format := None;
     description := "Sync clock from sender timestamp";
     serial_only := false;
     has_param := true |}.

(** One window line with two conversion calls. *)
Definition two_calls_line : string :=
  "    float freq = atof(tmp); int sf = atoi(parts[2]);".

Definition two_calls : string :=
  unlines [cmd_line "command" "tempradio " "10"; two_calls_line].

Definition two_calls_command : command :=
  {| name := "tempradio";
     category := "radio";
     params := [Param "value" "float"];
     response_format := None;
     description :=
       "Apply temporary radio params (freq bw sf cr timeout_mins)";
     serial_only := false;
     has_param := true |}.

(** An empty reply template followed by a non-empty one. *)
Definition empty_reply_line : string :=
  cat ["    sprintf(reply, "; q ""; ");"].

Definition ok_reply_line : string :=
  cat ["    strcpy(reply, "; q "OK"; ");"].

Definition empty_then_ok : string :=
  unlines [cmd_line "command" "password " "9"; empty_reply_line;
           ok_reply_line].

Definition empty_then_ok_command : command :=
  {| name := "password";
     category := "system";
     params := [];
     response_format := Some "OK";
     description := "Change admin password";
     serial_only := false;
     has_param := true |}.

(** Empty reply templates only. *)
Definition only_empty : string :=
  unlines [cmd_line "command" "password " "9"; empty_reply_line].

Definition only_empty_command : command :=
  {| name := "password";
     category := "system";
     params := [];
     response_format := None;
     description := "Change admin password";
     serial_only := false;
     has_param := true |}.

(** A reply sixteen lines below the command token, and the same text
    with the reply taken out. *)
Definition far_reply : list string :=
  cmd_line "command" "ver" "3" :: replicate 14 "    // ..."
  ++ [cat ["    sprintf(reply, "; q "%s (Build: %s)"; ", v, d);"]].

Definition no_reply : list string :=
  cmd_line "command" "ver" "3" :: replicate 14 "    // ..."
  ++ ["  }"].

Definition ver_command : command :=
  {| name := "ver";
     category := "system";
     params := [];
     response_format := None;
     description := "Show firmware version and build date";
     serial_only := false;
     has_param := false |}.

(** A header without the struct. *)
Definition other_header : string :=
  unlines ["#pragma once"; "struct RadioPrefs {"; "  float freq;"; "};"].

(** A Python module whose logger is defined below the class. *)
Definition logger_last : string :=
  unlines [
    "import logging";
    "";
    "class MeshCLI:";
    "    def _cmd_log(self, command: str) -> str:";
    cat ["        return "; dq; "Unknown log command"; dq];
    "";
    "logger = logging.getLogger(__name__)";
    ""
  ].

End Samples.

(** ** patches/mesh_cli_enhancements.py *)

Module Patcher.
Import PyStr Re.

(** [(self\.repeater_config = config\.get\('repeater', \{\}\))]: one
    group around literal text. *)
Definition init_pattern : regex :=
  Group 1 (Lit "self.repeater_config = config.get('repeater', {})").

(** What [init_replacement] puts after the group reference. *)
Definition init_replacement_tail : string :=
  unlines [
    "";
    "        ";
    "        # pymc_console: tempradio auto-revert state";
    "        self._tempradio_task = None";
    "        self._tempradio_original_config = None"
  ].

(** [old_reboot] *)
Definition old_reboot : string :=
  unlines [
    "def _cmd_reboot(self) -> str:";
    cat ["        "; tq; "Reboot the repeater process."; tq];
    cat ["        logger.warning("; dq; "Reboot command received - not implemented (use systemctl restart)"; dq; ")"];
    cat ["        return "; dq; "Error: Use systemctl restart pymc-repeater"; dq]
  ].

(** [new_reboot] *)
Definition new_reboot : string :=
  unlines [
    "def _cmd_reboot(self) -> str:";
    cat ["        "; tq; "Reboot the repeater process via systemctl."; tq];
    "        try:";
    "            import asyncio";
    "            ";
    "            async def delayed_restart():";
    cat ["                "; tq; "Delay restart to let CLI response send first."; tq];
    "                await asyncio.sleep(0.5)";
    "                subprocess.Popen(";
    cat ["                    ["; dq; "systemctl"; dq; ", "; dq; "restart"; dq; ", "; dq; "pymc-repeater"; dq; "],"];
    "                    stdout=subprocess.DEVNULL,";
    "                    stderr=subprocess.DEVNULL,";
    "                    start_new_session=True";
    "                )";
    "            ";
    "            asyncio.create_task(delayed_restart())";
    cat ["            logger.info("; dq; "Service restart scheduled"; dq; ")"];
    cat ["            return "; dq; "OK - rebooting..."; dq];
    "        except Exception as e:";
    cat ["            logger.error(f"; dq; "Failed to schedule restart: {e}"; dq; ")"];
    cat ["            return f"; dq; "Error: {e}"; dq]
  ].

(** [old_clear_stats] *)
Definition old_clear_stats : string :=
  unlines [
    "def _cmd_clear_stats(self) -> str:";
    cat ["        "; tq; "Clear statistics."; tq];
    "        # TODO: Implement stats clearing";
    cat ["        return "; dq; "Error: Not yet implemented"; dq]
  ].

(** [new_clear_stats] *)
Definition new_clear_stats : string :=
  unlines [
    "def _cmd_clear_stats(self) -> str:";
    cat ["        "; tq; "Clear statistics counters."; tq];
    "        if not self.storage_handler:";
    cat ["            return "; dq; "Error: Storage not available"; dq];
    "        ";
    "        try:";
    "            # Clear packet stats if method exists";
    "            if hasattr(self.storage_handler, 'clear_stats'):";
    "                self.storage_handler.clear_stats()";
    cat ["                logger.info("; dq; "Statistics cleared via CLI"; dq; ")"];
    cat ["                return "; dq; "OK - stats reset"; dq];
    "            else:";
    "                # Fallback: just log that we would clear";
    cat ["                logger.info("; dq; "clear stats requested (storage_handler.clear_stats not available)"; dq; ")"];
    cat ["                return "; dq; "OK - stats reset"; dq];
    "        except Exception as e:";
    cat ["            logger.error(f"; dq; "Failed to clear stats: {e}"; dq; ")"];
    cat ["            return f"; dq; "Error: {e}"; dq]
  ].

(** [old_neighbor_remove] *)
Definition old_neighbor_remove : string :=
  unlines [
    "def _cmd_neighbor_remove(self, command: str) -> str:";
    cat ["        "; tq; "Remove a neighbor."; tq];
    "        pubkey_hex = command[16:].strip()";
    "        ";
    "        if not pubkey_hex:";
    cat ["            return "; dq; "ERR: Missing pubkey"; dq];
    "        ";
    "        # TODO: Remove neighbor from routing table";
    cat ["        logger.info(f"; dq; "neighbor.remove: {pubkey_hex}"; dq; ")"];
    cat ["        return "; dq; "Error: Not yet implemented"; dq]
  ].

(** [new_neighbor_remove] *)
Definition new_neighbor_remove : string :=
  unlines [
    "def _cmd_neighbor_remove(self, command: str) -> str:";
    cat ["        "; tq; "Remove a neighbor by pubkey prefix."; tq];
    "        pubkey_hex = command[16:].strip()";
    "        ";
    "        if not pubkey_hex:";
    cat ["            return "; dq; "ERR: Missing pubkey"; dq];
    "        ";
    "        if not self.storage_handler:";
    cat ["            return "; dq; "Error: Storage not available"; dq];
    "        ";
    "        try:";
    "            # Try to remove neighbor if method exists";
    "            if hasattr(self.storage_handler, 'remove_neighbor'):";
    "                removed = self.storage_handler.remove_neighbor(pubkey_hex)";
    "                if removed:";
    cat ["                    logger.info(f"; dq; "Removed neighbor: {pubkey_hex}"; dq; ")"];
    cat ["                    return "; dq; "OK"; dq];
    "                else:";
    cat ["                    return f"; dq; "Error: Neighbor {pubkey_hex} not found"; dq];
    "            else:";
    "                # Fallback: check if neighbor exists and log";
    "                neighbors = self.storage_handler.get_neighbors() if hasattr(self.storage_handler, 'get_neighbors') else {}";
    "                matching = [k for k in neighbors.keys() if k.startswith(pubkey_hex)]";
    "                if matching:";
    cat ["                    logger.info(f"; dq; "neighbor.remove requested for {pubkey_hex} (remove_neighbor not available)"; dq; ")"];
    cat ["                    return f"; dq; "OK - marked for removal: {matching[0][:16]}"; dq];
    "                else:";
    cat ["                    return f"; dq; "Error: Neighbor {pubkey_hex} not found"; dq];
    "        except Exception as e:";
    cat ["            logger.error(f"; dq; "Failed to remove neighbor: {e}"; dq; ")"];
    cat ["            return f"; dq; "Error: {e}"; dq]
  ].

(** [old_tempradio] *)
Definition old_tempradio : string :=
  unlines [
    "def _cmd_tempradio(self, command: str) -> str:";
    cat ["        "; tq; "Apply temporary radio parameters."; tq];
    "        # Format: tempradio {freq} {bw} {sf} {cr} {timeout_mins}";
    "        parts = command[10:].split()";
    "        ";
    "        if len(parts) < 5:";
    cat ["            return "; dq; "Error: Expected freq bw sf cr timeout_mins"; dq];
    "        ";
    "        try:";
    "            freq = float(parts[0])";
    "            bw = float(parts[1])";
    "            sf = int(parts[2])";
    "            cr = int(parts[3])";
    "            timeout_mins = int(parts[4])";
    "            ";
    "            # Validate";
    "            if not (300.0 <= freq <= 2500.0):";
    cat ["                return "; dq; "Error: invalid frequency"; dq];
    "            if not (7.0 <= bw <= 500.0):";
    cat ["                return "; dq; "Error: invalid bandwidth"; dq];
    "            if not (5 <= sf <= 12):";
    cat ["                return "; dq; "Error: invalid spreading factor"; dq];
    "            if not (5 <= cr <= 8):";
    cat ["                return "; dq; "Error: invalid coding rate"; dq];
    "            if timeout_mins <= 0:";
    cat ["                return "; dq; "Error: invalid timeout"; dq];
    "            ";
    "            # TODO: Apply temporary radio parameters";
    cat ["            logger.info(f"; dq; "tempradio: {freq}MHz {bw}kHz SF{sf} CR4/{cr} for {timeout_mins}min"; dq; ")"];
    cat ["            return "; dq; "Error: Not yet implemented"; dq];
    "            ";
    "        except ValueError:";
    cat ["            return "; dq; "Error, invalid params"; dq]
  ].

(** [new_tempradio] *)
Definition new_tempradio : string :=
  unlines [
    "def _cmd_tempradio(self, command: str) -> str:";
    cat ["        "; tq; "Apply temporary radio parameters with auto-revert."];
    "        ";
    "        Format: tempradio {freq} {bw} {sf} {cr} {timeout_mins}";
    "        ";
    "        Saves current radio config, applies new params, schedules revert.";
    "        After timeout_mins, restores original config and restarts service.";
    cat ["        "; tq];
    "        parts = command[10:].split()";
    "        ";
    "        if len(parts) < 5:";
    cat ["            return "; dq; "Error: Expected freq bw sf cr timeout_mins"; dq];
    "        ";
    "        try:";
    "            freq = float(parts[0])";
    "            bw = float(parts[1])";
    "            sf = int(parts[2])";
    "            cr = int(parts[3])";
    "            timeout_mins = int(parts[4])";
    "            ";
    "            # Validate (MeshCore ranges)";
    "            if not (300.0 <= freq <= 2500.0):";
    cat ["                return "; dq; "Error: invalid frequency"; dq];
    "            if not (7.0 <= bw <= 500.0):";
    cat ["                return "; dq; "Error: invalid bandwidth"; dq];
    "            if not (5 <= sf <= 12):";
    cat ["                return "; dq; "Error: invalid spreading factor"; dq];
    "            if not (5 <= cr <= 8):";
    cat ["                return "; dq; "Error: invalid coding rate"; dq];
    "            if timeout_mins <= 0 or timeout_mins > 1440:";
    cat ["                return "; dq; "Error: timeout must be 1-1440 minutes"; dq];
    "            ";
    "            # Cancel any existing tempradio task";
    "            if self._tempradio_task and not self._tempradio_task.done():";
    "                self._tempradio_task.cancel()";
    cat ["                logger.info("; dq; "Cancelled previous tempradio timer"; dq; ")"];
    "            ";
    "            # Save original config (only if not already saved)";
    "            if self._tempradio_original_config is None:";
    "                self._tempradio_original_config = {";
    "                    'frequency': self.config.get('radio', {}).get('frequency'),";
    "                    'bandwidth': self.config.get('radio', {}).get('bandwidth'),";
    "                    'spreading_factor': self.config.get('radio', {}).get('spreading_factor'),";
    "                    'coding_rate': self.config.get('radio', {}).get('coding_rate'),";
    "                }";
    cat ["                logger.info(f"; dq; "Saved original radio config: {self._tempradio_original_config}"; dq; ")"];
    "            ";
    "            # Apply new config";
    "            if 'radio' not in self.config:";
    "                self.config['radio'] = {}";
    "            ";
    "            self.config['radio']['frequency'] = int(freq * 1_000_000)  # MHz to Hz";
    "            self.config['radio']['bandwidth'] = int(bw * 1000)  # kHz to Hz";
    "            self.config['radio']['spreading_factor'] = sf";
    "            self.config['radio']['coding_rate'] = cr";
    "            self.save_config()";
    "            ";
    cat ["            logger.info(f"; dq; "Applied tempradio: {freq}MHz {bw}kHz SF{sf} CR4/{cr} for {timeout_mins}min"; dq; ")"];
    "            ";
    "            # Schedule revert";
    "            import asyncio";
    "            ";
    "            async def revert_radio():";
    cat ["                "; tq; "Revert to original radio config after timeout."; tq];
    "                try:";
    "                    await asyncio.sleep(timeout_mins * 60)";
    "                    ";
    "                    # Restore original config";
    "                    if self._tempradio_original_config:";
    "                        for key, value in self._tempradio_original_config.items():";
    "                            if value is not None:";
    "                                self.config['radio'][key] = value";
    "                        self.save_config()";
    "                        self._tempradio_original_config = None";
    "                        ";
    cat ["                        logger.info("; dq; "tempradio timeout - restored original config, restarting service"; dq; ")"];
    "                        ";
    "                        # Restart service to apply original config";
    "                        subprocess.Popen(";
    cat ["                            ["; dq; "systemctl"; dq; ", "; dq; "restart"; dq; ", "; dq; "pymc-repeater"; dq; "],"];
    "                            stdout=subprocess.DEVNULL,";
    "                            stderr=subprocess.DEVNULL,";
    "                            start_new_session=True";
    "                        )";
    "                except asyncio.CancelledError:";
    cat ["                    logger.info("; dq; "tempradio revert cancelled"; dq; ")"];
    "                except Exception as e:";
    cat ["                    logger.error(f"; dq; "tempradio revert failed: {e}"; dq; ")"];
    "            ";
    "            self._tempradio_task = asyncio.create_task(revert_radio())";
    "            ";
    cat ["            return f"; dq; "OK - temp params for {timeout_mins} mins"; dq];
    "            ";
    "        except ValueError:";
    cat ["            return "; dq; "Error, invalid params"; dq]
  ].

(** [old_stats_routing] *)
Definition old_stats_routing : string :=
  unlines [
    "# Statistics commands";
    cat ["        elif command.startswith("; dq; "stats-"; dq; "):"];
    cat ["            return "; dq; "Error: Stats commands not fully implemented yet"; dq]
  ].

(** [new_stats_routing] *)
Definition new_stats_routing : string :=
  unlines [
    "# Statistics commands";
    cat ["        elif command == "; dq; "stats-packets"; dq; ":"];
    "            return self._cmd_stats_packets()";
    cat ["        elif command == "; dq; "stats-radio"; dq; ":"];
    "            return self._cmd_stats_radio()";
    cat ["        elif command == "; dq; "stats-core"; dq; ":"];
    "            return self._cmd_stats_core()";
    cat ["        elif command.startswith("; dq; "stats-"; dq; "):"];
    cat ["            return f"; dq; "Unknown stats command: {command}"; dq]
  ].

(** [old_ver_routing] *)
Definition old_ver_routing : string :=
  unlines [
    cat ["elif command == "; dq; "ver"; dq; ":"];
    "            return self._cmd_version()"
  ].

(** [new_ver_routing] *)
Definition new_ver_routing : string :=
  unlines [
    cat ["elif command == "; dq; "ver"; dq; ":"];
    "            return self._cmd_version()";
    cat ["        elif command == "; dq; "board"; dq; ":"];
    "            return self._cmd_board()"
  ].

(** [stats_methods] *)
Definition stats_methods : string :=
  unlines [
    "";
    "    # ==================== Statistics Commands (pymc_console) ====================";
    "    ";
    "    def _cmd_stats_packets(self) -> str:";
    cat ["        "; tq; "Show packet statistics (MeshCore parity)."; tq];
    "        if not self.storage_handler:";
    cat ["            return "; dq; "Error: Storage not available"; dq];
    "        ";
    "        try:";
    "            # Get stats from storage if available";
    "            stats = {}";
    "            if hasattr(self.storage_handler, 'get_packet_stats'):";
    "                stats = self.storage_handler.get_packet_stats()";
    "            elif hasattr(self.storage_handler, 'get_stats'):";
    "                stats = self.storage_handler.get_stats()";
    "            ";
    "            rx = stats.get('rx_count', stats.get('received', 0))";
    "            tx = stats.get('tx_count', stats.get('transmitted', 0))";
    "            fwd = stats.get('forwarded_count', stats.get('forwarded', 0))";
    "            drop = stats.get('dropped_count', stats.get('dropped', 0))";
    "            ";
    cat ["            return f"; dq; "rx: {rx}\ntx: {tx}\nfwd: {fwd}\ndrop: {drop}"; dq];
    "        except Exception as e:";
    cat ["            logger.error(f"; dq; "stats-packets error: {e}"; dq; ")"];
    cat ["            return f"; dq; "Error: {e}"; dq];
    "    ";
    "    def _cmd_stats_radio(self) -> str:";
    cat ["        "; tq; "Show radio statistics (MeshCore parity)."; tq];
    "        radio = self.config.get('radio', {})";
    "        ";
    "        freq_hz = radio.get('frequency', 915000000)";
    "        bw_hz = radio.get('bandwidth', 125000)";
    "        sf = radio.get('spreading_factor', 7)";
    "        cr = radio.get('coding_rate', 5)";
    "        tx_power = radio.get('tx_power', 20)";
    "        ";
    "        freq_mhz = freq_hz / 1_000_000.0";
    "        bw_khz = bw_hz / 1_000.0";
    "        ";
    "        # Get noise floor if available";
    cat ["        noise = "; dq; "?"; dq];
    "        if self.storage_handler and hasattr(self.storage_handler, 'get_noise_floor'):";
    "            noise = self.storage_handler.get_noise_floor()";
    "        ";
    "        return (";
    cat ["            f"; dq; "freq: {freq_mhz:.3f} MHz\n"; dq];
    cat ["            f"; dq; "bw: {bw_khz:.0f} kHz\n"; dq];
    cat ["            f"; dq; "sf: {sf}\n"; dq];
    cat ["            f"; dq; "cr: {cr}\n"; dq];
    cat ["            f"; dq; "tx_pwr: {tx_power} dBm\n"; dq];
    cat ["            f"; dq; "noise: {noise} dBm"; dq];
    "        )";
    "    ";
    "    def _cmd_stats_core(self) -> str:";
    cat ["        "; tq; "Show core statistics (MeshCore parity)."; tq];
    "        import time";
    "        ";
    "        # Basic uptime (process start time not tracked, use placeholder)";
    cat ["        uptime_str = "; dq; "unknown"; dq];
    "        ";
    "        # Get neighbor count";
    "        neighbor_count = 0";
    "        if self.storage_handler and hasattr(self.storage_handler, 'get_neighbors'):";
    "            neighbors = self.storage_handler.get_neighbors()";
    "            neighbor_count = len(neighbors) if neighbors else 0";
    "        ";
    "        # Get stats";
    "        stats = {}";
    "        if self.storage_handler:";
    "            if hasattr(self.storage_handler, 'get_stats'):";
    "                stats = self.storage_handler.get_stats()";
    "        ";
    "        rx_hr = stats.get('rx_per_hour', '?')";
    "        fwd_hr = stats.get('forwarded_per_hour', '?')";
    "        airtime = stats.get('utilization_percent', '?')";
    "        ";
    "        return (";
    cat ["            f"; dq; "uptime: {uptime_str}\n"; dq];
    cat ["            f"; dq; "rx/hr: {rx_hr}\n"; dq];
    cat ["            f"; dq; "fwd/hr: {fwd_hr}\n"; dq];
    cat ["            f"; dq; "neighbors: {neighbor_count}\n"; dq];
    cat ["            f"; dq; "airtime: {airtime}%"; dq];
    "        )";
    "    ";
    "    def _cmd_board(self) -> str:";
    cat ["        "; tq; "Show board/platform information (MeshCore parity)."; tq];
    "        import platform";
    cat ["        return f"; dq; "pyMC_Repeater ({platform.system()}/{platform.machine()})"; dq];
    ""
  ].

(** [init_replacement]: group 1, then the two new assignments. *)
Definition init_replacement (caps : captures) : string :=
  default "" (group 1 caps) +:+ init_replacement_tail.

(** The text under edit and [patches_applied]. *)
Definition work : Type := string * list string.

(** PATCH 1: add the import of [subprocess]. *)
Definition patch_imports (w : work) : work :=
  let '(content, patches_applied) := w in
  if negb (contains "import subprocess" content) then
    let logger_pos := find content (nl +:+ "logger = ") in
    if (0 <? logger_pos)%Z then
      let import_section := take_str (Z.to_nat logger_pos) content in
      let rest := drop_str (Z.to_nat logger_pos) content in
      if negb (contains "import subprocess" import_section) then
        let import_section :=
          replace import_section
            ("import time" +:+ nl)
            ("import time" +:+ nl
             +:+ "import subprocess  # pymc_console: for systemctl commands"
             +:+ nl) in
        (import_section +:+ rest, (patches_applied ++ ["imports"])%list)
      else w
    else w
  else w.

(** PATCH 2: add the tempradio state to [__init__]. *)
Definition patch_tempradio_state (w : work) : work :=
  let '(content, patches_applied) := w in
  if negb (contains "_tempradio_task" content) then
    (sub init_pattern init_replacement content,
     (patches_applied ++ ["tempradio_state"])%list)
  else w.

(** PATCHES 3 to 7: replace [old] by [new] where [old] occurs. *)
Definition patch_replace (old new label : string) (w : work) : work :=
  let '(content, patches_applied) := w in
  if contains old content then
    (replace content old new, (patches_applied ++ [label])%list)
  else w.

(** PATCH 8: route the board command after the version command. *)
Definition patch_board_routing (w : work) : work :=
  let '(content, patches_applied) := w in
  if negb (contains ("command == " +:+ q "board") content) then
    if contains old_ver_routing content then
      (replace content old_ver_routing new_ver_routing,
       (patches_applied ++ ["board_routing"])%list)
    else w
  else w.

(** PATCH 9: add the statistics methods after the log method. *)
Definition patch_stats_methods (w : work) : work :=
  let '(content, patches_applied) := w in
  if negb (contains "def _cmd_stats_packets" content) then
    let log_method_end :=
      rfind content ("return " +:+ q "Unknown log command") in
    if (0 <? log_method_end)%Z then
      let newline_pos := find_at content nl (Z.to_nat log_method_end) in
      if (0 <? newline_pos)%Z then
        (take_str (Z.to_nat newline_pos) content +:+ stats_methods
         +:+ drop_str (Z.to_nat newline_pos) content,
         (patches_applied ++ ["stats_methods"])%list)
      else w
    else w
  else w.

(** Lines 35-469: the nine patches in order, from the text read. *)
Definition patch_content (original : string) : work :=
  let w := (original, []) in
  let w := patch_imports w in
  let w := patch_tempradio_state w in
  let w := patch_replace old_reboot new_reboot "reboot" w in
  let w := patch_replace old_clear_stats new_clear_stats "clear_stats" w in
  let w := patch_replace old_neighbor_remove new_neighbor_remove
             "neighbor_remove" w in
  let w := patch_replace old_tempradio new_tempradio "tempradio" w in
  let w := patch_replace old_stats_routing new_stats_routing
             "stats_routing" w in
  let w := patch_board_routing w in
  patch_stats_methods w.

(** What one run prints. *)
Inductive report : Type :=
| NotFound
| Patched (patches_applied : list string)
| NoChanges.

(** [patch_file] on a path that holds [file] ([None]: no such file):
    the file afterwards, the value returned and the message printed. *)
Definition patch_file (file : option string) : option string * bool * report :=
  match file with
  | None => (None, false, NotFound)
  | Some original =>
      let '(content, patches_applied) := patch_content original in
      if negb (String.eqb content original)
      then (Some content, true, Patched patches_applied)
      else (Some original, true, NoChanges)
  end.

(** The text a run leaves in the file. *)
Definition patched (original : string) : string :=
  fst (patch_content original).

End Patcher.


(** ** Further notions about the scan *)

Module ScanFacts.
Import PyStr Re Extractor.

(** The line holds the serial-only marker (line 92). *)
Definition has_marker (line : string) : bool :=
  match search serial_only_pattern line with
  | Some _ => true
  | None => false
  end.

(** The line begins a new branch (line 175). *)
Definition else_line (line : string) : bool :=
  startswith (strip line) "} else".

(** The three shapes the get/set part of the scanning state takes. *)
Definition coherent (st : scan) : Prop :=
  (current_category st = None
   ∧ in_get_block st = false ∧ in_set_block st = false)
  ∨ (current_category st = Some "get"
     ∧ in_get_block st = true ∧ in_set_block st = false)
  ∨ (current_category st = Some "set"
     ∧ in_get_block st = false ∧ in_set_block st = true).

(** The types a parameter entry can have. *)
Definition param_types : list string := ["float"; "int"; "string"].

End ScanFacts.

(** ** What a match of a pattern looks like *)

Module ReShape.
Import PyStr Re.

(** Every character of [p] is in the class [cl]. *)
Fixpoint all_in (cl : cclass) (p : string) : bool :=
  match p with
  | "" => true
  | String a p' => cmatch cl a && all_in cl p'
  end.

(** [matches r p caps caps']: the pattern [r] can match the text [p],
    taking the groups from [caps] to [caps'].  The relation says which
    texts a pattern allows, not which of them the matcher prefers. *)
Inductive matches : regex → string → captures → captures → Prop :=
| M_Lit l caps :
    matches (Lit l) l caps caps
| M_Cls cl a caps :
    cmatch cl a = true → matches (Cls cl) (String a "") caps caps
| M_Star cl p caps :
    all_in cl p = true → matches (Star cl) p caps caps
| M_Plus cl a p caps :
    cmatch cl a = true → all_in cl p = true →
    matches (Plus cl) (String a p) caps caps
| M_Opt_some r p caps caps' :
    matches r p caps caps' → matches (Opt r) p caps caps'
| M_Opt_none r caps :
    matches (Opt r) "" caps caps
| M_Alt_l r1 r2 p caps caps' :
    matches r1 p caps caps' → matches (Alt r1 r2) p caps caps'
| M_Alt_r r1 r2 p caps caps' :
    matches r2 p caps caps' → matches (Alt r1 r2) p caps caps'
| M_Seq r1 r2 p1 p2 caps caps1 caps2 :
    matches r1 p1 caps caps1 → matches r2 p2 caps1 caps2 →
    matches (Seq r1 r2) (p1 +:+ p2) caps caps2
| M_Group n r p caps caps' :
    matches r p caps caps' → matches (Group n r) p caps ((n, p) :: caps').

(** The types [parse_prefs_struct] knows. *)
Definition field_types : list string :=
  ["float"; "double"; "char"; "uint8_t"; "uint16_t"; "uint32_t"; "int"].

End ReShape.

(** ** [generate_registry] *)

Module Registry.
Import PyStr Extractor.

(** [COMMONCLI_URL] *)
Definition COMMONCLI_URL : string :=
  "https://raw.githubusercontent.com/meshcore-dev/MeshCore/main/src/helpers/CommonCLI.cpp".

(** The order of the sort keys [(c['category'], c['name'])]: tuples
    compare item by item, strings character by character on the code
    points. *)
Definition key_le (a b : command) : bool :=
  match String.compare (category a) (category b) with
  | Lt => true
  | Eq => String.leb (name a) (name b)
  | Gt => false
  end.

(** [commands.sort(key=...)].  The sort of Python is stable, and the
    stable sorting of a list is the one that inserts every element, from
    the last to the first, in front of the elements not smaller than
    it. *)
Fixpoint insert_sorted (x : command) (l : list command) : list command :=
  match l with
  | [] => [x]
  | y :: l' => if key_le x y then x :: l else y :: insert_sorted x l'
  end.

Definition sort_commands (l : list command) : list command :=
  foldr insert_sorted [] l.

(** Lines 374-377: [cmd] joins the list of its category, which is
    created at the end of the [dict] when the category is new.  The
    [dict] is a list of pairs in insertion order. *)
Fixpoint group_add (by_category : list (string * list command))
    (cmd : command) : list (string * list command) :=
  match by_category with
  | [] => [(category cmd, [cmd])]
  | (cat, cmds) :: rest =>
      if String.eqb cat (category cmd)
      then (cat, cmds ++ [cmd]) :: rest
      else (cat, cmds) :: group_add rest cmd
  end.

(** [by_category.get(cat)] *)
Fixpoint group_of (by_category : list (string * list command))
    (cat : string) : option (list command) :=
  match by_category with
  | [] => None
  | (k, cmds) :: rest =>
      if String.eqb k cat then Some cmds else group_of rest cat
  end.

(** The registry document. *)
Record registry : Type := {
  r_version : string;
  r_source_url : string;
  r_generated_by : string;
  r_total_commands : nat;
  r_categories : list string;
  r_commands : list command;
  r_commands_by_category : list (string * list command);
  r_node_prefs : gmap string field
}.

(** [generate_registry]; [today] is the date [datetime.utcnow()] gives,
    formatted. *)
Definition generate_registry (today : string) (commands : list command)
    (prefs : gmap string field) : registry :=
  let commands := sort_commands commands in
  let by_category := fold_left group_add commands [] in
  {| r_version := today;
     r_source_url := COMMONCLI_URL;
     r_generated_by := "parse_meshcore_cli.py";
     r_total_commands := length commands;
     r_categories := fst <$> by_category;
     r_commands := commands;
     r_commands_by_category := by_category;
     r_node_prefs := prefs |}.

(** The commands whose sort key is that of [d]. *)
Definition same_key (d x : command) : bool :=
  String.eqb (category x) (category d) && String.eqb (name x) (name d).

(** The strict order of strings. *)
Definition str_lt (a b : string) : Prop := String.compare a b = Lt.

End Registry.

(** ** Notions about the registry *)

Module RegistryFacts.
Import Extractor.

(** A list as the value of a [dict] entry that only exists when the list
    is not empty. *)
Definition nonempty_list {A : Type} (l : list A) : option (list A) :=
  match l with
  | [] => None
  | _ :: _ => Some l
  end.

(** The commands of category [cat], in the order of [l]. *)
Definition of_category (cat : string) (l : list command) : list command :=
  filter (λ d, category d = cat) l.

End RegistryFacts.

(** ** Occurrences of one text in another *)

Module Occur.
Import PyStr.

(** [p] occurs in [s]. *)
Definition occurs (p s : string) : Prop := ∃ a b, s = a +:+ p +:+ b.

(** Some non-empty end of [a] is a beginning of [b]. *)
Fixpoint border (a b : string) : bool :=
  match a with
  | "" => false
  | String _ a' => startswith b a || border a' b
  end.

(** An occurrence of [p] can share characters with an occurrence of [n]:
    one lies within the other, or an end of one is a beginning of the
    other. *)
Definition touches (p n : string) : bool :=
  contains p n || contains n p || border p n || border n p.

(** [replaced old new s r]: [r] is [s] with the occurrences of [old],
    taken from left to right without overlap, replaced by [new]. *)
Inductive replaced (old new : string) : string → string → Prop :=
| replaced_none s :
    ¬ occurs old s → replaced old new s s
| replaced_first x y r :
    (∀ a b, x +:+ old +:+ y = a +:+ old +:+ b → ∃ t, a = x +:+ t) →
    replaced old new y r →
    replaced old new (x +:+ old +:+ y) (x +:+ new +:+ r).

End Occur.

(** ** Notions about the patcher *)

Module PatchFacts.
Import PyStr Re Patcher.

(** The text the pattern of PATCH 2 stands for. *)
Definition init_literal : string :=
  "self.repeater_config = config.get('repeater', {})".

(** The texts whose presence makes PATCH 2, PATCH 8 and PATCH 9 skip. *)
Definition tempradio_marker : string := "_tempradio_task".
Definition board_marker : string := cat ["command == "; q "board"].
Definition stats_marker : string := "def _cmd_stats_packets".



(** The method bodies and the routing the patches 3 to 7 replace. *)
Definition old_bodies : list string :=
  [ old_reboot; old_clear_stats; old_neighbor_remove; old_tempradio;
    old_stats_routing ].

(** What a patch does to the text alone. *)
Definition on_text (patch : work → work) (content : string) : string :=
  fst (patch (content, [])).

(** A text on which the patches 2 to 9 find nothing to do. *)
Definition settled (c : string) : Prop :=
  (contains tempradio_marker c = true ∨ contains init_literal c = false)
  ∧ contains old_reboot c = false
  ∧ contains old_clear_stats c = false
  ∧ contains old_neighbor_remove c = false
  ∧ contains old_tempradio c = false
  ∧ contains old_stats_routing c = false
  ∧ (contains board_marker c = true ∨ contains old_ver_routing c = false)
  ∧ on_text patch_stats_methods c = c.


(** A small module in the shape of [mesh_cli.py], and a text without
    any anchor. *)
Definition mesh_cli_sample : string :=
  unlines
    [ "import time";
      "";
      "logger = logging.getLogger(__name__)";
      "";
      "        self.repeater_config = config.get('repeater', {})";
      cat ["        return "; q "Unknown log command"];
      "" ].


End PatchFacts.

(** ** Further sample inputs *)

Module MoreSamples.
Import PyStr Re Extractor Samples.

(** A get block with one setting, its reply and its value. *)
Definition get_freq : string :=
  unlines [ cmd_line "command" "get " "4";
            cmd_line "config" "freq" "4";
            cat ["      sprintf(reply, "; q "> %s"; ", StrHelper::ftoa(f));"];
            "      float f = atof(tmp);" ].

Definition get_freq_command : command :=
  {| name := "get freq";
     category := "get";
     params := [Param "value" "float"];
     response_format := Some "> {str}";
     description := "Get frequency (MHz)";
     serial_only := false;
     has_param := true |}.

(** The command token of [clock_sync]. *)
Definition clock_sync_token : mobj :=
  {| m_start := 13;
     m_text := cat ["memcmp(command, "; q "clock sync"; ", 10)"];
     m_rest := " == 0) {";
     m_caps := [(3, "10"); (2, "clock sync"); (1, "command")] |}.

(** A command below the serial-only marker. *)
Definition serial_erase : list string :=
  [ "  if (sender_timestamp == 0) {";
    cmd_line "command" "erase" "5" ].

Definition erase_command : command :=
  {| name := "erase";
     category := "system";
     params := [];
     response_format := None;
     description := "Erase filesystem (serial only)";
     serial_only := true;
     has_param := false |}.

(** The struct of the preferences. *)
Definition node_prefs : string :=
  unlines [ "struct NodePrefs {"; "  float airtime_factor;";
            "  char node_name[32];"; "};" ].

End MoreSamples.

(** ** Notions about the preference fields *)

Module PrefsFacts.
Import PyStr Re Extractor.

(** The matches of [field_pattern] in the body of the struct found in
    [header_source], left to right. *)
Definition field_matches (header_source : string) : list mobj :=
  match search struct_pattern header_source with
  | Some struct_match =>
      finditer field_pattern (group_str 1 struct_match)
  | None => []
  end.

(** Whether the match declares the field [name]. *)
Definition declares (name : string) (m : mobj) : bool :=
  String.eqb (group_str 2 m) name.

(** A struct that declares a field twice. *)
Definition twice_declared : string :=
  "struct NodePrefs { float rx_delay; uint8_t rx_delay[4]; }".

End PrefsFacts.
(** * Properties *)

Import PyStr Re Extractor Scan Rules Samples.

(** ** The loop of [parse_commands] *)

Section Loop.
Variable lines : list string.

Lemma body_scan (st : scan) (cs : list command) (i : nat) :
  fst (body lines (st, cs) i)
  = leave_block (item lines i) (track (item lines i) st).
Proof. unfold body. by destruct (search _ _). Qed.

Lemma body_commands (st : scan) (cs : list command) (i : nat) :
  snd (body lines (st, cs) i)
  = match search cmd_pattern (item lines i) with
    | Some m => add_command (describe lines i (track (item lines i) st) m) cs
    | None => cs
    end.
Proof. unfold body. by destruct (search _ _). Qed.

(** The loop keeps the scanning state and the deduplicated candidates. *)
Lemma loop_unfold (k : nat) :
  fold_left (body lines) (seq 0 k) (scan0, [])
  = (scan_before lines k,
     fold_left (λ acc d, add_command d acc)
               (omap (candidate lines) (seq 0 k)) []).
Proof.
  induction k as [|k IH].
  - reflexivity.
  - unfold scan_before in *. rewrite seq_S, fold_left_app, omap_app.
    rewrite fold_left_app. rewrite IH. simpl.
    unfold candidate, token. simpl.
    unfold body at 1. destruct (search cmd_pattern (item lines k)); reflexivity.
Qed.

Lemma scan_before_S (k : nat) :
  scan_before lines (S k)
  = leave_block (item lines k) (track (item lines k) (scan_before lines k)).
Proof.
  unfold scan_before. rewrite seq_S, fold_left_app. simpl.
  destruct (fold_left _ _ _) as [st cs]. apply body_scan.
Qed.

End Loop.

Lemma parse_lines_dedup (lines : list string) :
  parse_lines lines
  = fold_left (λ acc d, add_command d acc) (candidates lines) [].
Proof. unfold parse_lines, candidates. by rewrite loop_unfold. Qed.

(** ** De-duplication by name *)

Section Dedup.
Implicit Types (n : string) (d c : command) (cs acc : list command).

Lemma first_named_app n cs cs' :
  first_named n (cs ++ cs')
  = match first_named n cs with
    | Some c => Some c
    | None => first_named n cs'
    end.
Proof.
  unfold first_named. induction cs as [|c cs IH]; simpl; [done|].
  by destruct (String.eqb (name c) n).
Qed.

Lemma known_first_named n cs :
  known n cs = bool_decide (is_Some (first_named n cs)).
Proof.
  unfold known, first_named. induction cs as [|c cs IH]; simpl.
  - done.
  - by destruct (String.eqb (name c) n).
Qed.

Lemma first_named_name n cs c : first_named n cs = Some c → name c = n.
Proof.
  unfold first_named. intros H. apply find_some in H as [_ H].
  by apply String.eqb_eq.
Qed.

Lemma first_named_None n cs : first_named n cs = None ↔ n ∉ name <$> cs.
Proof.
  unfold first_named. induction cs as [|c cs IH]; simpl.
  - split; [intros _; apply not_elem_of_nil | done].
  - destruct (String.eqb_spec (name c) n) as [->|Hne].
    + split; [done|]. intros []. apply list_elem_of_here.
    + rewrite IH, not_elem_of_cons.
      split; [intros H; split; [congruence|done] | by intros [_ H]].
Qed.

Lemma first_named_add n d acc :
  first_named n (add_command d acc)
  = match first_named n acc with
    | Some c => Some c
    | None => if String.eqb (name d) n then Some d else None
    end.
Proof.
  unfold add_command. rewrite known_first_named.
  case_bool_decide as Hk; simpl.
  - destruct (first_named n acc) eqn:Hn; [done|].
    destruct (String.eqb_spec (name d) n) as [<-|]; [|done].
    rewrite Hn in Hk. by destruct Hk.
  - rewrite first_named_app. destruct (first_named n acc); [done|].
    unfold first_named. simpl. by destruct (String.eqb (name d) n).
Qed.

Lemma first_named_dedup n cs acc :
  first_named n (fold_left (λ acc d, add_command d acc) cs acc)
  = match first_named n acc with
    | Some c => Some c
    | None => first_named n cs
    end.
Proof.
  revert acc. induction cs as [|d cs IH]; intros acc; simpl.
  - by destruct (first_named n acc).
  - rewrite IH, first_named_add. destruct (first_named n acc); [done|].
    unfold first_named at 2. simpl. by destruct (String.eqb (name d) n).
Qed.

Lemma NoDup_add_command d acc :
  NoDup (name <$> acc) → NoDup (name <$> add_command d acc).
Proof.
  intros Hnd. unfold add_command. rewrite known_first_named.
  case_bool_decide as Hk; simpl; [done|].
  rewrite fmap_app. apply NoDup_app. split; [done|]. split.
  - intros x Hx Hd. simpl in Hd. apply list_elem_of_singleton in Hd as ->.
    apply Hk. destruct (first_named (name d) acc) eqn:E; [by eexists|].
    by apply first_named_None in E.
  - simpl. apply NoDup_singleton.
Qed.

Lemma NoDup_dedup cs acc :
  NoDup (name <$> acc) →
  NoDup (name <$> fold_left (λ acc d, add_command d acc) cs acc).
Proof.
  revert acc. induction cs as [|d cs IH]; intros acc Hnd; simpl; [done|].
  by apply IH, NoDup_add_command.
Qed.

(** In a list without repeated names, the descriptors named [n] are the
    first one, if any. *)
Lemma filter_named n cs :
  NoDup (name <$> cs) →
  filter (λ d, name d = n) cs = option_list (first_named n cs).
Proof.
  induction cs as [|c cs IH]; intros Hnd; [done|].
  apply NoDup_cons in Hnd as [Hc Hnd]. fold (fmap name cs) in *.
  unfold first_named. simpl. rewrite filter_cons.
  destruct (String.eqb_spec (name c) n) as [<-|Hne].
  - rewrite decide_True by done. simpl. f_equal.
    rewrite IH by done. apply first_named_None in Hc. by rewrite Hc.
  - rewrite decide_False by done. by apply IH.
Qed.

End Dedup.

(** C1.  The output of [parse_commands] holds no name twice, and for
    every name the descriptors of the output that carry it are exactly
    the first candidate of that name: one descriptor when some command
    token resolves to the name, with all its fields as built at the first
    such match, and none otherwise. *)
Theorem first_occurrence_wins (cpp_source : string) :
  NoDup (name <$> parse_commands cpp_source)
  ∧ ∀ n : string,
      filter (λ d, name d = n) (parse_commands cpp_source)
      = option_list (first_named n (candidates (split_lines cpp_source))).
Proof.
  unfold parse_commands. rewrite parse_lines_dedup.
  assert (NoDup (name <$> fold_left (λ acc d, add_command d acc)
                   (candidates (split_lines cpp_source)) [])) as Hnd.
  { apply NoDup_dedup. simpl. apply NoDup_nil_2. }
  split; [done|]. intros n.
  rewrite filter_named by done. by rewrite first_named_dedup.
Qed.

(** ** The lookahead window *)

Section Window.
Implicit Types (lines : list string) (i j k : nat).

Lemma item_lookup lines j l : lines !! j = Some l → item lines j = l.
Proof. unfold item. by intros ->. Qed.

Lemma fold_left_fmap {A B C : Type} (f : A → B → A) (g : C → B)
    (l : list C) (a : A) :
  fold_left f (g <$> l) a = fold_left (λ a x, f a (g x)) l a.
Proof. revert a. induction l as [|x l IH]; intros a; simpl; [done|]. apply IH. Qed.

(** The lines at the indices [i .. i + k - 1], when they all exist. *)
Lemma items_seq lines i k :
  i + k ≤ length lines → item lines <$> seq i k = take k (drop i lines).
Proof.
  intros Hk. apply list_eq. intros x.
  rewrite list_lookup_fmap.
  destruct (decide (x < k)) as [Hx|Hx].
  - rewrite lookup_take_lt by done. rewrite lookup_drop.
    rewrite lookup_seq_lt by done. simpl.
    destruct (lookup_lt_is_Some_2 lines (i + x)) as [l Hl]; [lia|].
    rewrite Hl. f_equal. by apply item_lookup.
  - rewrite lookup_take_ge by lia. rewrite lookup_seq_ge by lia. done.
Qed.

(** [range(i, min(i + 15, len(lines)))] walks the window lines. *)
Lemma lookahead_window_lines lines i :
  lookahead lines i
  = fold_left scan_context (window_lines lines i) (None, []).
Proof.
  unfold lookahead, window, window_lines.
  destruct (decide (length lines ≤ i)) as [Hi|Hi].
  { rewrite drop_ge by done. rewrite take_nil.
    by replace (Nat.min (i + 15) (length lines) - i) with 0 by lia. }
  rewrite <- (fold_left_fmap scan_context (item lines)).
  rewrite items_seq by lia. f_equal.
  apply list_eq. intros x.
  destruct (decide (x < Nat.min (i + 15) (length lines) - i)) as [Hx|Hx].
  - rewrite !lookup_take_lt by lia. done.
  - rewrite lookup_take_ge by lia.
    destruct (decide (x < 15)) as [Hx'|Hx'].
    + rewrite lookup_take_lt by done. rewrite lookup_drop.
      symmetry. apply lookup_ge_None. lia.
    + by rewrite lookup_take_ge by lia.
Qed.

Lemma window_lines_agree lines lines' i :
  (∀ j, i ≤ j < i + 15 → lines' !! j = lines !! j) →
  window_lines lines' i = window_lines lines i.
Proof.
  intros H. unfold window_lines. apply list_eq. intros x.
  destruct (decide (x < 15)) as [Hx|Hx].
  - rewrite !lookup_take_lt by done. rewrite !lookup_drop. apply H. lia.
  - by rewrite !lookup_take_ge by lia.
Qed.

Lemma item_agree lines lines' j :
  lines' !! j = lines !! j → item lines' j = item lines j.
Proof. unfold item. by intros ->. Qed.

(** The scanning state on entry to turn [k] is made from the lines
    before [k]. *)
Lemma scan_before_agree lines lines' k :
  (∀ j, j < k → lines' !! j = lines !! j) →
  scan_before lines' k = scan_before lines k.
Proof.
  induction k as [|k IH]; intros H; [done|].
  rewrite !scan_before_S. rewrite IH by (intros; apply H; lia).
  by rewrite (item_agree lines lines' k) by (apply H; lia).
Qed.

Lemma lookahead_agree lines lines' i :
  (∀ j, i ≤ j < i + 15 → lines' !! j = lines !! j) →
  lookahead lines' i = lookahead lines i.
Proof.
  intros H. rewrite !lookahead_window_lines.
  by rewrite (window_lines_agree lines lines' i).
Qed.

Lemma candidate_agree lines lines' i :
  (∀ j, j < i + 15 → lines' !! j = lines !! j) →
  candidate lines' i = candidate lines i.
Proof.
  intros H. unfold candidate, token.
  rewrite (item_agree lines lines' i) by (apply H; lia).
  destruct (search cmd_pattern (item lines i)) as [m|]; [|done].
  f_equal. unfold describe.
  rewrite (lookahead_agree lines lines' i) by (intros; apply H; lia).
  rewrite (scan_before_agree lines lines' i) by (intros; apply H; lia).
  done.
Qed.

End Window.

(** C2.  The lookahead from a command token on line [i] reads the lines
    [i .. i + 14] (fewer at the end of the input), each of them once and
    in order, and nothing else: two inputs that agree on those lines give
    the same reply format and parameters, and two inputs that agree up to
    line [i + 14] give the same descriptor at line [i], whatever follows
    from line [i + 15] on. *)
Theorem lookahead_bounded (lines lines' : list string) (i : nat) :
  (∀ j, i ≤ j < i + 15 → lines' !! j = lines !! j) →
  lookahead lines i = fold_left scan_context (take 15 (drop i lines)) (None, [])
  ∧ lookahead lines' i = lookahead lines i
  ∧ (take i lines' = take i lines → candidate lines' i = candidate lines i).
Proof.
  intros H. split; [apply lookahead_window_lines|].
  split; [by apply lookahead_agree|].
  intros Hpre. apply candidate_agree. intros j Hj.
  destruct (decide (j < i)) as [Hlt|Hge]; [|apply H; lia].
  rewrite <- (lookup_take_lt lines' i j), <- (lookup_take_lt lines i j) by done.
  by rewrite Hpre.
Qed.

Lemma lookahead_bounded_witness :
  (∀ j, 0 ≤ j < 0 + 15 → far_reply !! j = no_reply !! j)
  ∧ lookahead no_reply 0
    = fold_left scan_context (take 15 (drop 0 no_reply)) (None, [])
  ∧ lookahead far_reply 0 = lookahead no_reply 0
  ∧ (take 0 far_reply = take 0 no_reply →
     candidate far_reply 0 = candidate no_reply 0).
Proof.
  assert (∀ j, 0 ≤ j < 0 + 15 → far_reply !! j = no_reply !! j) as H.
  { intros j Hj. do 15 (destruct j as [|j]; [reflexivity|]). lia. }
  split; [exact H|]. exact (lookahead_bounded no_reply far_reply 0 H).
Defined.

(** The reply on line 15 is not attributed to the token on line 0. *)
Example far_reply_ignored :
  search reply_pattern (item far_reply 15)
  = Some (MObj 4 (cat ["sprintf(reply, "; q "%s (Build: %s)"])
            ", v, d);" [(1, "%s (Build: %s)")])
  ∧ parse_lines far_reply = [ver_command].
Proof. split; vm_compute; reflexivity. Qed.

(** ** The fields of a descriptor *)

Section Describe.
Variables (lines : list string) (i : nat) (st : scan) (m : mobj).

Lemma describe_name :
  name (describe lines i st m)
  = fst (full_command st (group_str 1 m) (group_str 2 m)).
Proof.
  unfold describe. destruct (full_command _ _ _), (lookahead _ _). done.
Qed.

Lemma describe_category :
  category (describe lines i st m)
  = snd (full_command st (group_str 1 m) (group_str 2 m)).
Proof.
  unfold describe. destruct (full_command _ _ _), (lookahead _ _). done.
Qed.

Lemma describe_params :
  params (describe lines i st m) = snd (lookahead lines i).
Proof.
  unfold describe. destruct (full_command _ _ _), (lookahead _ _). done.
Qed.

Lemma describe_response_format :
  response_format (describe lines i st m)
  = clean_response_format (fst (lookahead lines i)).
Proof.
  unfold describe. destruct (full_command _ _ _), (lookahead _ _). done.
Qed.

Lemma describe_has_param :
  has_param (describe lines i st m)
  = has_char " " (group_str 2 m) || (0 <? length (snd (lookahead lines i))).
Proof.
  unfold describe. destruct (full_command _ _ _), (lookahead _ _). done.
Qed.

End Describe.

(** Every descriptor of the output was built at some line. *)
Lemma elem_of_dedup (d : command) (cs acc : list command) :
  d ∈ fold_left (λ acc d, add_command d acc) cs acc → d ∈ acc ∨ d ∈ cs.
Proof.
  revert acc. induction cs as [|c cs IH]; intros acc H; simpl in *.
  - by left.
  - apply IH in H as [H|H].
    + unfold add_command in H. destruct (negb _).
      * apply elem_of_app in H as [H|H]; [by left|].
        apply list_elem_of_singleton in H as ->. right. apply list_elem_of_here.
      * by left.
    + right. by apply list_elem_of_further.
Qed.

Lemma parse_lines_candidate (lines : list string) (d : command) :
  d ∈ parse_lines lines →
  ∃ i, i < length lines ∧ candidate lines i = Some d.
Proof.
  rewrite parse_lines_dedup. intros H.
  apply elem_of_dedup in H as [H|H]; [by apply not_elem_of_nil in H|].
  unfold candidates in H. apply list_elem_of_omap in H as (i & Hi & Hc).
  exists i. split; [|done]. apply elem_of_seq in Hi. lia.
Qed.

Lemma candidate_token (lines : list string) (i : nat) (d : command) :
  candidate lines i = Some d →
  ∃ m, token lines i = Some m
       ∧ d = describe lines i (track (item lines i) (scan_before lines i)) m.
Proof.
  unfold candidate. destruct (token lines i) as [m|]; [|done].
  intros [= <-]. by exists m.
Qed.

(** ** Parameters: one entry per window line *)

Lemma scan_context_params (rf : option string) (ps : list param)
    (l : string) :
  snd (scan_context (rf, ps) l) = ps ++ option_list (conversion l).
Proof.
  unfold scan_context, conversion. simpl.
  repeat case_match; simpl; by rewrite ?app_nil_r.
Qed.

Lemma fold_scan_context_params (ls : list string) (rf : option string)
    (ps : list param) :
  snd (fold_left scan_context ls (rf, ps)) = ps ++ omap conversion ls.
Proof.
  revert rf ps. induction ls as [|l ls IH]; intros rf ps; cbn [fold_left].
  - simpl. by rewrite app_nil_r.
  - pose proof (scan_context_params rf ps l) as H.
    destruct (scan_context (rf, ps) l) as [rf' ps'].
    rewrite IH. simpl in H. rewrite H.
    rewrite <- app_assoc. simpl. by destruct (conversion l).
Qed.

Lemma lookahead_params (lines : list string) (i : nat) :
  snd (lookahead lines i) = omap conversion (window_lines lines i).
Proof. rewrite lookahead_window_lines. apply fold_scan_context_params. Qed.

(** ** The reply format: the first non-empty template *)

Lemma scan_context_format (rf : option string) (ps : list param)
    (l : string) :
  fst (scan_context (rf, ps) l) = fold_left keep (reply_templates l) rf.
Proof.
  unfold scan_context, reply_templates, keep. simpl.
  destruct (search reply_pattern l), (search strcpy_pattern l); simpl;
    by repeat case_match.
Qed.

Lemma fold_scan_context_format (ls : list string) (rf : option string)
    (ps : list param) :
  fst (fold_left scan_context ls (rf, ps))
  = fold_left keep (flat_map reply_templates ls) rf.
Proof.
  revert rf ps. induction ls as [|l ls IH]; intros rf ps; [done|].
  cbn [fold_left flat_map].
  pose proof (scan_context_format rf ps l) as H.
  destruct (scan_context (rf, ps) l) as [rf' ps'].
  rewrite IH, fold_left_app. f_equal. exact H.
Qed.

Lemma keep_truthy (ts : list string) (rf : option string) :
  truthy rf = true → fold_left keep ts rf = rf.
Proof.
  induction ts as [|t ts IH]; intros H; simpl; [done|].
  unfold keep at 2. rewrite H. simpl. by apply IH.
Qed.

Lemma clean_falsy (rf : option string) :
  truthy rf = false → clean_response_format rf = None.
Proof. destruct rf as [[|]|]; simpl; done. Qed.

(** What [clean_response_format] gets is, up to emptiness, the first
    non-empty template. *)
Lemma clean_keep (ts : list string) (rf : option string) :
  truthy rf = false →
  clean_response_format (fold_left keep ts rf)
  = clean_response_format (List.find nonempty ts).
Proof.
  revert rf. induction ts as [|t ts IH]; intros rf H; simpl.
  - by apply clean_falsy.
  - unfold keep at 2. rewrite H. simpl. destruct t as [|a t]; simpl.
    + by apply IH.
    + by rewrite keep_truthy.
Qed.

Lemma candidate_response_format (lines : list string) (i : nat)
    (d : command) :
  candidate lines i = Some d →
  response_format d
  = clean_response_format
      (List.find nonempty (flat_map reply_templates (window_lines lines i))).
Proof.
  intros H. apply candidate_token in H as (m & _ & ->).
  rewrite describe_response_format, lookahead_window_lines.
  rewrite fold_scan_context_format. by apply clean_keep.
Qed.

(** ** What a descriptor records *)

(** C3 fails as stated.  The literal [clock sync] has an inner space, no
    trailing space, and no parameter is inferred for it, yet the
    descriptor has [has_param] set. *)
Lemma has_param_inner_space :
  group_str 2 <$> search cmd_pattern clock_sync = Some "clock sync"
  ∧ trailing_space "clock sync" = false
  ∧ parse_commands clock_sync = [clock_sync_command]
  ∧ params clock_sync_command = []
  ∧ has_param clock_sync_command = true.
Proof. repeat split; vm_compute; reflexivity. Qed.

(** C3, amended.  Every descriptor of the output was built at a line
    with a command token, and its [has_param] is true exactly when the
    matched literal holds a space anywhere, or some parameter was
    inferred. *)
Theorem has_param_any_space (cpp_source : string) (d : command) :
  d ∈ parse_commands cpp_source →
  ∃ (i : nat) (m : mobj),
    token (split_lines cpp_source) i = Some m
    ∧ candidate (split_lines cpp_source) i = Some d
    ∧ (has_param d = true
       ↔ has_char " " (group_str 2 m) = true ∨ params d ≠ []).
Proof.
  intros H. apply parse_lines_candidate in H as (i & _ & Hc).
  destruct (candidate_token _ _ _ Hc) as (m & Hm & ->).
  exists i, m. split; [done|]. split; [done|].
  rewrite describe_has_param, describe_params.
  destruct (lookahead _ _).2 as [|p ps]; simpl.
  - rewrite orb_false_r. split; [by left | by intros [H|H]].
  - rewrite orb_true_r. split; [by right | done].
Qed.

Lemma has_param_any_space_witness :
  clock_sync_command ∈ parse_commands clock_sync
  ∧ ∃ (i : nat) (m : mobj),
      token (split_lines clock_sync) i = Some m
      ∧ candidate (split_lines clock_sync) i = Some clock_sync_command
      ∧ (has_param clock_sync_command = true
         ↔ has_char " " (group_str 2 m) = true
           ∨ params clock_sync_command ≠ []).
Proof.
  assert (clock_sync_command ∈ parse_commands clock_sync) as H.
  { vm_compute. constructor. }
  split; [exact H|]. exact (has_param_any_space clock_sync _ H).
Defined.

(** C4 fails as stated.  The window line holds an [atof] call and an
    [atoi] call, and the descriptor gets the float entry only. *)
Lemma two_calls_one_entry :
  contains "atof(" two_calls_line = true
  ∧ contains "atoi(" two_calls_line = true
  ∧ parse_commands two_calls = [two_calls_command]
  ∧ params two_calls_command = [Param "value" "float"].
Proof. repeat split; vm_compute; reflexivity. Qed.

(** C4, amended.  The parameters of the descriptor built at line [i]
    are one entry per window line that holds a conversion call, in
    line order; on each line the first test passed among [atof(],
    [atoi(] and [strncpy(] decides the type, so a line with several
    calls gives a single entry. *)
Theorem params_one_per_line (lines : list string) (i : nat) (d : command) :
  candidate lines i = Some d →
  params d = omap conversion (take 15 (drop i lines)).
Proof.
  intros H. apply candidate_token in H as (m & _ & ->).
  rewrite describe_params. apply lookahead_params.
Qed.

Lemma params_one_per_line_witness :
  candidate (split_lines two_calls) 0 = Some two_calls_command
  ∧ params two_calls_command
    = omap conversion (take 15 (drop 0 (split_lines two_calls))).
Proof.
  assert (candidate (split_lines two_calls) 0 = Some two_calls_command) as H.
  { vm_compute. reflexivity. }
  split; [exact H|]. exact (params_one_per_line _ 0 _ H).
Defined.

(** C5 fails as stated.  The first reply call in the window has an
    empty template; the [strcpy] on the next line overwrites it. *)
Lemma empty_reply_overwritten :
  reply_templates (item (split_lines empty_then_ok) 0) = []
  ∧ reply_templates (item (split_lines empty_then_ok) 1) = [""]
  ∧ reply_templates (item (split_lines empty_then_ok) 2) = ["OK"]
  ∧ fst (lookahead (split_lines empty_then_ok) 0) = Some "OK"
  ∧ parse_commands empty_then_ok = [empty_then_ok_command].
Proof. repeat split; vm_compute; reflexivity. Qed.

(** C5, amended.  The reply format of the descriptor built at line [i]
    is the normalized first non-empty template among those the window
    lines offer, taken line by line and on each line the leftmost
    [sprintf] to [reply] before the leftmost [strcpy] to [reply]; empty
    templates are passed over, and nothing after the first non-empty
    one is looked at. *)
Theorem first_nonempty_reply (lines : list string) (i : nat) (d : command) :
  candidate lines i = Some d →
  response_format d
  = clean_response_format
      (List.find nonempty
         (flat_map reply_templates (take 15 (drop i lines)))).
Proof. apply candidate_response_format. Qed.

Lemma first_nonempty_reply_witness :
  candidate (split_lines empty_then_ok) 0 = Some empty_then_ok_command
  ∧ response_format empty_then_ok_command
    = clean_response_format
        (List.find nonempty
           (flat_map reply_templates
              (take 15 (drop 0 (split_lines empty_then_ok))))).
Proof.
  assert (candidate (split_lines empty_then_ok) 0
          = Some empty_then_ok_command) as H.
  { vm_compute. reflexivity. }
  split; [exact H|]. exact (first_nonempty_reply _ 0 _ H).
Defined.

(** C10 fails as stated.  The first reply call in the window has an
    empty template, and the reply format of the descriptor is not
    [None]. *)
Lemma empty_first_reply_not_none :
  flat_map reply_templates (take 15 (drop 0 (split_lines empty_then_ok)))
  = [""; "OK"]
  ∧ ∃ d, candidate (split_lines empty_then_ok) 0 = Some d
         ∧ parse_commands empty_then_ok = [d]
         ∧ response_format d ≠ None.
Proof.
  split; [vm_compute; reflexivity|].
  exists empty_then_ok_command.
  repeat split; [vm_compute; reflexivity..|discriminate].
Qed.

(** C10, amended.  [clean_response_format] maps the empty string to
    [None], and when every template the window offers is empty the
    reply format of the descriptor is [None], as when the window has
    no reply call. *)
Theorem empty_templates_give_none (lines : list string) (i : nat)
    (d : command) :
  candidate lines i = Some d →
  Forall (λ t, t = "") (flat_map reply_templates (take 15 (drop i lines))) →
  clean_response_format (Some "") = None ∧ response_format d = None.
Proof.
  intros Hc Hall. split; [done|].
  rewrite (candidate_response_format _ _ _ Hc).
  fold (window_lines lines i) in Hall.
  destruct (List.find _ _) as [t|] eqn:E; [|done].
  apply find_some in E as [Hin Hne].
  rewrite Forall_forall in Hall.
  apply list_elem_of_In, Hall in Hin. by subst t.
Qed.

Lemma empty_templates_give_none_witness :
  candidate (split_lines only_empty) 0 = Some only_empty_command
  ∧ Forall (λ t, t = "")
      (flat_map reply_templates (take 15 (drop 0 (split_lines only_empty))))
  ∧ clean_response_format (Some "") = None
  ∧ response_format only_empty_command = None.
Proof.
  assert (candidate (split_lines only_empty) 0 = Some only_empty_command)
    as H by (vm_compute; reflexivity).
  assert (Forall (λ t, t = "")
            (flat_map reply_templates
               (take 15 (drop 0 (split_lines only_empty))))) as H'
    by (vm_compute; repeat constructor).
  split; [exact H|]. split; [exact H'|].
  exact (empty_templates_give_none _ 0 _ H H').
Defined.

(** C6.  Every descriptor of the output has one of the twelve category
    labels; [classify_command] gives one of them for every name, and
    [other] for a name that passes none of its tests. *)
Theorem category_closed (cpp_source : string) (d : command) :
  d ∈ parse_commands cpp_source →
  category d ∈ categories
  ∧ (∀ cmd, classify_command cmd ∈ categories)
  ∧ (∀ cmd,
       existsb (startswith cmd)
         ["get "; "set "; "log"; "gps"; "sensor"; "bridge"; "stats"] = false →
       mem cmd ["neighbors"; "neighbor.remove"; "reboot"; "advert"; "clock";
                "clock sync"; "time"; "ver"; "board"; "erase"; "start ota";
                "clear stats"; "password"; "tempradio"] = false →
       classify_command cmd = "other").
Proof.
  assert (∀ cmd, classify_command cmd ∈ categories) as Hcl.
  { intros cmd. unfold classify_command, categories.
    repeat case_match;
      repeat first [apply list_elem_of_here | apply list_elem_of_further]. }
  intros H. split; [|split; [exact Hcl|]].
  - apply parse_lines_candidate in H as (i & _ & Hc).
    apply candidate_token in Hc as (m & _ & ->).
    rewrite describe_category. unfold full_command.
    repeat case_match; simpl; try apply Hcl;
      unfold categories;
      repeat first [apply list_elem_of_here | apply list_elem_of_further].
  - intros cmd Hp Hm. unfold classify_command. simpl in Hp, Hm.
    unfold mem. simpl.
    repeat (apply orb_false_elim in Hp as [? Hp]).
    repeat (apply orb_false_elim in Hm as [? Hm]).
    repeat match goal with H : _ = false |- _ => rewrite H; clear H end.
    done.
Qed.

Lemma category_closed_witness :
  clock_sync_command ∈ parse_commands clock_sync
  ∧ category clock_sync_command ∈ categories.
Proof.
  assert (clock_sync_command ∈ parse_commands clock_sync) as H.
  { vm_compute. constructor. }
  split; [exact H|]. exact (proj1 (category_closed clock_sync _ H)).
Defined.

(** ** Facts about the matcher *)

Section Matching.
Implicit Types (l s sub : string) (r : regex) (i : nat).

Lemma after_prefix_startswith l s s' :
  after_prefix l s = Some s' → startswith s l = true.
Proof.
  revert s. induction l as [|a l IH]; intros [|b s] H; simpl in *; try done.
  destruct (Ascii.eqb a b); [|done]. simpl. by eapply IH.
Qed.

Lemma startswith_contains sub s :
  startswith s sub = true → contains sub s = true.
Proof. destruct s; simpl; by intros ->. Qed.

Lemma contains_tail sub a s :
  contains sub (String a s) = false → contains sub s = false.
Proof. simpl. intros H. by apply orb_false_elim in H as [_ H]. Qed.

Lemma match_here_opens l r s x :
  opens_with l r → match_here r s = Some x → startswith s l = true.
Proof.
  unfold match_here. intros [->|[r' ->]]; simpl;
    destruct (after_prefix l s) as [s'|] eqn:E; try done;
    intros _; by eapply after_prefix_startswith.
Qed.

(** Such a pattern is not found in a text without [l]. *)
Lemma search_opens l r s i :
  opens_with l r → contains l s = false → search_from r s i = None.
Proof.
  intros Hr. revert i. induction s as [|a s IH]; intros i H.
  - simpl. destruct (match_here r "") as [[n caps]|] eqn:E; [|done].
    apply (match_here_opens l) in E; [|done].
    apply startswith_contains in E. congruence.
  - simpl. destruct (match_here r (String a s)) as [[n caps]|] eqn:E.
    + apply (match_here_opens l) in E; [|done].
      apply startswith_contains in E. congruence.
    + apply IH. by eapply contains_tail.
Qed.

(** [re.sub] leaves a text without a match as it is. *)
Lemma sub_no_match_from r (repl : captures → string) s i :
  search_from r s i = None → sub r repl s = s.
Proof.
  unfold sub. revert i.
  induction s as [|a s IH]; intros i H; simpl in *.
  - by destruct (match_here r "") as [[n caps]|].
  - destruct (match_here r (String a s)) as [[n caps]|]; [done|].
    f_equal. by eapply IH.
Qed.

Lemma sub_no_match r (repl : captures → string) s :
  search r s = None → sub r repl s = s.
Proof. apply sub_no_match_from. Qed.

Lemma contains_has_char (c : ascii) l s :
  has_char c s = false → contains (String c l) s = false.
Proof.
  unfold has_char. induction s as [|a s IH]; simpl; [done|].
  intros H. apply orb_false_elim in H as [H1 H2].
  rewrite IH by done. rewrite orb_false_r.
  destruct (Ascii.eqb c a); [|done]. simpl in H1. by destruct s.
Qed.

(** No specifier is found in a text without a percent sign. *)
Lemma no_percent_no_specifier s :
  has_char "%" s = false → Forall (λ r, search r s = None) specifiers.
Proof.
  intros H. unfold specifiers, search.
  repeat apply Forall_cons_2; [..|apply Forall_nil_2].
  - apply (search_opens "%"); [right; by eexists|done].
  - apply (search_opens "%s"); [by left|by apply contains_has_char].
  - apply (search_opens "%u"); [by left|by apply contains_has_char].
  - apply (search_opens "%"); [right; by eexists|done].
Qed.

End Matching.

(** ** Format normalization *)

(** C7 fails as stated.  The empty string holds no specifier, and
    [clean_response_format] turns it into [None]. *)
Lemma clean_empty_changes :
  Forall (λ r, search r "" = None) specifiers
  ∧ clean_response_format (Some "") = None
  ∧ clean_response_format (Some "") ≠ Some "".
Proof.
  split; [by apply no_percent_no_specifier|]. split; [done|discriminate].
Qed.

(** C7, amended.  A non-empty string in which none of the four
    specifiers is found comes back unchanged from
    [clean_response_format], so cleaning it twice is cleaning it once. *)
Theorem clean_normalized (s : string) :
  s ≠ "" →
  Forall (λ r, search r s = None) specifiers →
  clean_response_format (Some s) = Some s
  ∧ clean_response_format (clean_response_format (Some s))
    = clean_response_format (Some s).
Proof.
  intros Hne Hall.
  assert (clean_response_format (Some s) = Some s) as H.
  { unfold specifiers in Hall.
    apply Forall_cons in Hall as [H1 Hall].
    apply Forall_cons in Hall as [H2 Hall].
    apply Forall_cons in Hall as [H3 Hall].
    apply Forall_cons in Hall as [H4 _].
    destruct s as [|a s]; [done|]. unfold clean_response_format.
    cbn [truthy negb].
    rewrite (sub_no_match int_spec) by done.
    rewrite (sub_no_match str_spec) by done.
    rewrite (sub_no_match uint_spec) by done.
    by rewrite (sub_no_match float_spec) by done. }
  split; [exact H|]. by rewrite !H.
Qed.

Lemma clean_normalized_witness :
  "OK {int} {float}" ≠ ""
  ∧ Forall (λ r, search r "OK {int} {float}" = None) specifiers
  ∧ clean_response_format (Some "OK {int} {float}")
    = Some "OK {int} {float}"
  ∧ clean_response_format (clean_response_format (Some "OK {int} {float}"))
    = clean_response_format (Some "OK {int} {float}").
Proof.
  assert ("OK {int} {float}" ≠ "") as H by discriminate.
  assert (Forall (λ r, search r "OK {int} {float}" = None) specifiers) as H'
    by (repeat (apply Forall_cons_2; [vm_compute; reflexivity|]);
        apply Forall_nil_2).
  split; [exact H|]. split; [exact H'|].
  exact (clean_normalized _ H H').
Defined.

(** Cleaning is not idempotent on texts that do hold specifiers. *)
Example clean_twice_differs :
  clean_response_format (Some "%%.2f") = Some "%{float}"
  ∧ clean_response_format (Some "%{float}") = Some "{float}loat}".
Proof. split; vm_compute; reflexivity. Qed.

(** ** The struct-field parser *)

(** The struct is not found where its name does not occur. *)
Lemma struct_name_absent (header_source : string) :
  contains "struct NodePrefs" header_source = false →
  search struct_pattern header_source = None.
Proof.
  apply search_opens. right. by eexists.
Qed.

(** C9.  When the declaration of [NodePrefs] is not found in the
    header, [parse_prefs_struct] returns the empty mapping. *)
Theorem prefs_not_found (header_source : string) :
  search struct_pattern header_source = None →
  parse_prefs_struct header_source = ∅.
Proof. unfold parse_prefs_struct. by intros ->. Qed.

Lemma prefs_not_found_witness :
  search struct_pattern other_header = None
  ∧ parse_prefs_struct other_header = ∅.
Proof.
  assert (search struct_pattern other_header = None) as H
    by (vm_compute; reflexivity).
  split; [exact H|]. exact (prefs_not_found other_header H).
Defined.

(** A struct with an empty body is not found either, and one that is
    found gives its fields. *)
Example prefs_samples :
  parse_prefs_struct "struct NodePrefs {};" = ∅
  ∧ map_to_list
      (parse_prefs_struct
         (unlines ["struct NodePrefs {"; "  float airtime_factor;";
                   "  char node_name[32];"; "};"]))
    ≡ₚ [("airtime_factor", Field "float" None);
        ("node_name", Field "char" (Some 32%N))].
Proof. split; [vm_compute; reflexivity|]. vm_compute. reflexivity. Qed.

(** ** The patcher *)

Import Patcher.

(** C8 fails on [logger_last].  The first run adds the statistics
    methods above the logger line; the second run then finds their
    [import time] in what it takes for the import section and adds the
    import of [subprocess] inside the method, so it changes the file
    again and reports a patch. *)
Theorem second_run_changes :
  patch_file (Some logger_last)
  = (Some (patched logger_last), true,
     Patched ["imports"; "tempradio_state"; "stats_methods"])
  ∧ patch_file (Some (patched logger_last))
    = (Some (patched (patched logger_last)), true,
       Patched ["imports"; "tempradio_state"])
  ∧ patched (patched logger_last) ≠ patched logger_last
  ∧ contains "import subprocess" (patched logger_last) = false
  ∧ contains (cat ["        import time"; nl; "import subprocess  # pymc"])
      (patched (patched logger_last)) = true.
Proof.
  split; [vm_compute; reflexivity|]. split; [vm_compute; reflexivity|].
  split; [|split; vm_compute; reflexivity].
  apply String.eqb_neq. vm_compute. reflexivity.
Qed.

(** ** The end-to-end scenarios of the specification *)

Example scenario_ver :
  parse_commands (cat ["memcmp(command, "; q "ver"; ", 3) == 0"])
  = [ver_command].
Proof. vm_compute. reflexivity. Qed.

Example scenario_get_af :
  parse_commands
    (unlines ["// GET commands";
              cat ["memcmp(config, "; q "af"; ", 2) == 0"]])
  = [Command "get af" "get" [] None "Get airtime factor" false false].
Proof. vm_compute. reflexivity. Qed.

Example scenario_serial_only :
  serial_only
  <$> parse_commands
        (unlines ["  if (sender_timestamp == 0) {";
                  cat ["    if (memcmp(command, "; q "log start"; ", 9) == 0) {"]])
  = [true]
  ∧ is_serial_only_command "log start" = false.
Proof. split; vm_compute; reflexivity. Qed.

Example scenario_reply_format :
  response_format
  <$> parse_commands
        (unlines [cmd_line "command" "clock" "5";
                  cat ["    sprintf(reply, "; q "OK %d"; ", x);"]])
  = [Some "OK {int}"].
Proof. vm_compute. reflexivity. Qed.

Example scenario_no_token :
  parse_commands (unlines ["int main() {"; "  return 0;"; "}"]) = [].
Proof. vm_compute. reflexivity. Qed.
Import ScanFacts.

(** ** Order and number of the descriptors *)

Lemma dedup_sublist (cs acc : list command) :
  ∃ l, fold_left (λ acc d, add_command d acc) cs acc = acc ++ l
       ∧ sublist l cs.
Proof.
  revert acc. induction cs as [|d cs IH]; intros acc; simpl.
  - exists []. by rewrite app_nil_r.
  - destruct (IH (add_command d acc)) as (l & -> & Hl).
    unfold add_command. destruct (negb _).
    + exists (d :: l). rewrite <- app_assoc. split; [done|].
      by apply sublist_skip.
    + exists l. split; [done|]. by apply sublist_cons.
Qed.

Lemma candidates_length (lines : list string) :
  length (candidates lines) ≤ length lines.
Proof.
  assert (∀ l : list nat, length (omap (candidate lines) l) ≤ length l) as H.
  { induction l as [|i l IH]; [done|]. cbn [omap list_omap].
    destruct (candidate lines i); simpl in *; lia. }
  unfold candidates. etrans; [apply H|]. by rewrite length_seq.
Qed.

(** X1.  The descriptors come in the order of the lines they were first
    seen on: the output is a subsequence of the descriptors built line by
    line, so it holds at most one descriptor per input line. *)
Theorem output_in_line_order (cpp_source : string) :
  sublist (parse_commands cpp_source) (candidates (split_lines cpp_source))
  ∧ length (parse_commands cpp_source) ≤ length (split_lines cpp_source).
Proof.
  unfold parse_commands. rewrite parse_lines_dedup.
  destruct (dedup_sublist (candidates (split_lines cpp_source)) [])
    as (l & -> & Hl).
  simpl. split; [done|].
  apply sublist_length in Hl.
  pose proof (candidates_length (split_lines cpp_source)). lia.
Qed.

Lemma candidates_nil (lines : list string) :
  candidates lines = [] ↔ ∀ l, l ∈ lines → search cmd_pattern l = None.
Proof.
  unfold candidates. split.
  - intros H l Hl. apply list_elem_of_lookup in Hl as [i Hi].
    destruct (search cmd_pattern l) as [m|] eqn:E; [|done].
    exfalso.
    assert (is_Some (candidate lines i)) as [d Hd].
    { unfold candidate, token. rewrite (item_lookup _ _ _ Hi), E. by eexists. }
    assert (d ∈ omap (candidate lines) (seq 0 (length lines))) as Hin.
    { apply list_elem_of_omap. exists i. split; [|done].
      apply elem_of_seq. apply lookup_lt_Some in Hi. lia. }
    rewrite H in Hin. by apply not_elem_of_nil in Hin.
  - intros H. 
    destruct (omap (candidate lines) (seq 0 (length lines))) as [|d ds] eqn:E; [done|].
    exfalso.
    assert (d ∈ omap (candidate lines) (seq 0 (length lines))) as Hin
      by (rewrite E; apply list_elem_of_here).
    apply list_elem_of_omap in Hin as (i & Hi & Hc).
    apply elem_of_seq in Hi.
    destruct (lookup_lt_is_Some_2 lines i) as [l Hl]; [lia|].
    unfold candidate, token in Hc. rewrite (item_lookup _ _ _ Hl) in Hc.
    rewrite (H l) in Hc; [done|]. apply list_elem_of_lookup. by exists i.
Qed.

(** X2.  The output is empty exactly when no line of the input holds a
    command token. *)
Theorem no_token_no_command (cpp_source : string) :
  parse_commands cpp_source = []
  ↔ ∀ l, l ∈ split_lines cpp_source → search cmd_pattern l = None.
Proof.
  rewrite <- candidates_nil. unfold parse_commands.
  rewrite parse_lines_dedup.
  destruct (candidates (split_lines cpp_source)) as [|d ds]; [done|].
  simpl. unfold add_command at 2. simpl.
  destruct (dedup_sublist ds [d]) as (l & -> & _). done.
Qed.
Import MoreSamples.

(** ** Names and categories *)

Lemma classify_get (cmd : string) :
  classify_command cmd = "get" → startswith cmd "get " = true.
Proof.
  unfold classify_command. destruct (startswith cmd "get "); [done|].
  repeat case_match; discriminate.
Qed.

Lemma classify_set (cmd : string) :
  classify_command cmd = "set" → startswith cmd "set " = true.
Proof.
  unfold classify_command. destruct (startswith cmd "get "); [discriminate|].
  destruct (startswith cmd "set "); [done|].
  repeat case_match; discriminate.
Qed.

Lemma startswith_app (p s : string) : startswith (p +:+ s) p = true.
Proof.
  induction p as [|a p IH]; simpl; [by destruct s|].
  rewrite Ascii.eqb_refl. exact IH.
Qed.

(** X3.  A descriptor of category [get] has a name that begins with
    [get ], and one of category [set] a name that begins with [set ]. *)
Theorem category_prefixes_name (cpp_source : string) (d : command) :
  d ∈ parse_commands cpp_source →
  (category d = "get" → startswith (name d) "get " = true)
  ∧ (category d = "set" → startswith (name d) "set " = true).
Proof.
  intros H. apply parse_lines_candidate in H as (i & _ & Hc).
  apply candidate_token in Hc as (m & _ & ->).
  rewrite describe_category, describe_name. unfold full_command.
  destruct (String.eqb _ "config").
  - destruct (in_get_block _); simpl.
    + split; [intros _; apply (startswith_app "get ")|discriminate].
    + destruct (in_set_block _); simpl.
      * split; [discriminate|intros _; apply (startswith_app "set ")].
      * split; discriminate.
  - simpl. split; [apply classify_get|apply classify_set].
Qed.

Lemma category_prefixes_name_witness :
  get_freq_command ∈ parse_commands get_freq
  ∧ (category get_freq_command = "get"
     → startswith (name get_freq_command) "get " = true)
  ∧ (category get_freq_command = "set"
     → startswith (name get_freq_command) "set " = true).
Proof.
  assert (get_freq_command ∈ parse_commands get_freq) as H.
  { vm_compute. apply list_elem_of_further, list_elem_of_here. }
  split; [exact H|]. exact (category_prefixes_name get_freq _ H).
Defined.

(** ** The get/set part of the scanning state *)

Lemma track_coherent (line : string) (st : scan) :
  coherent st → coherent (track line st).
Proof.
  unfold coherent, track.
  intros [(H1 & H2 & H3)|[(H1 & H2 & H3)|(H1 & H2 & H3)]];
    rewrite H1, H2, H3; repeat case_match; simpl;
    first [by left | by right; left | by right; right].
Qed.

Lemma leave_block_coherent (line : string) (st : scan) :
  coherent st → coherent (leave_block line st).
Proof. unfold coherent, leave_block. by case_match. Qed.

(** X4.  At every turn of the loop the get block and the set block are
    not both open, and [current_category] says which one is: it is
    [get] in the get block, [set] in the set block and [None] outside. *)
Theorem blocks_exclusive (lines : list string) (i : nat) :
  coherent (scan_before lines i)
  ∧ coherent (track (item lines i) (scan_before lines i)).
Proof.
  assert (coherent (scan_before lines i)) as H.
  { induction i as [|i IH]; [by left|].
    rewrite scan_before_S. by apply leave_block_coherent, track_coherent. }
  split; [done|]. by apply track_coherent.
Qed.

(** ** Parameters *)

Lemma conversion_shape (l : string) (p : param) :
  conversion l = Some p → p_name p = "value" ∧ p_type p ∈ param_types.
Proof.
  unfold conversion, param_types.
  repeat case_match; intros [= <-]; simpl; (split; [done|]);
    repeat first [apply list_elem_of_here | apply list_elem_of_further].
Qed.

Lemma omap_length_le {A B : Type} (f : A → option B) (l : list A) :
  length (omap f l) ≤ length l.
Proof.
  induction l as [|x l IH]; [done|]. cbn [omap list_omap].
  destruct (f x); simpl in *; lia.
Qed.

(** X5.  A descriptor has at most fifteen parameters, each of them named
    [value] and of type [float], [int] or [string]. *)
Theorem params_bounded (cpp_source : string) (d : command) :
  d ∈ parse_commands cpp_source →
  length (params d) ≤ 15
  ∧ Forall (λ p, p_name p = "value" ∧ p_type p ∈ param_types) (params d).
Proof.
  intros H. apply parse_lines_candidate in H as (i & _ & Hc).
  apply candidate_token in Hc as (m & _ & ->).
  rewrite describe_params, lookahead_params. split.
  - etrans; [apply omap_length_le|]. unfold window_lines.
    rewrite length_take. lia.
  - apply Forall_forall. intros p Hp.
    apply list_elem_of_omap in Hp as (l & _ & Hl).
    by eapply conversion_shape.
Qed.

Lemma params_bounded_witness :
  two_calls_command ∈ parse_commands two_calls
  ∧ length (params two_calls_command) ≤ 15
  ∧ Forall (λ p, p_name p = "value" ∧ p_type p ∈ param_types)
      (params two_calls_command).
Proof.
  assert (two_calls_command ∈ parse_commands two_calls) as H.
  { vm_compute. constructor. }
  split; [exact H|]. exact (params_bounded two_calls _ H).
Defined.

(** ** The reply format is never the empty string *)

Lemma append_nonempty (a b : string) : a ≠ "" → a +:+ b ≠ "".
Proof. by destruct a. Qed.

Lemma sub_nonempty (r : regex) (new s : string) :
  new ≠ "" → s ≠ "" → sub r (λ _, new) s ≠ "".
Proof.
  intros Hn Hs. destruct s as [|a s]; [done|]. unfold sub. simpl.
  destruct (match_here r (String a s)) as [[[|n] caps]|];
    [by apply append_nonempty..|done].
Qed.

Lemma clean_not_empty (fmt : option string) :
  clean_response_format fmt ≠ Some "".
Proof.
  destruct fmt as [[|a f]|]; [done| |done].
  unfold clean_response_format. cbn [truthy negb]. intros [= H].
  revert H. repeat apply sub_nonempty; done.
Qed.

(** X6.  The reply format of a descriptor is [None] or a non-empty
    string, also when the reply template found is made of specifiers
    only. *)
Theorem response_format_not_empty (cpp_source : string) (d : command) :
  d ∈ parse_commands cpp_source → response_format d ≠ Some "".
Proof.
  intros H. apply parse_lines_candidate in H as (i & _ & Hc).
  apply candidate_token in Hc as (m & _ & ->).
  rewrite describe_response_format. apply clean_not_empty.
Qed.

Lemma response_format_not_empty_witness :
  only_empty_command ∈ parse_commands only_empty
  ∧ response_format only_empty_command ≠ Some "".
Proof.
  assert (only_empty_command ∈ parse_commands only_empty) as H.
  { vm_compute. constructor. }
  split; [exact H|]. exact (response_format_not_empty only_empty _ H).
Defined.
Import MoreSamples.

(** ** The serial-only context *)

Lemma track_serial (line : string) (st : scan) :
  serial_only_context (track line st)
  = has_marker line || serial_only_context st.
Proof.
  unfold track, has_marker.
  destruct (search serial_only_pattern line); repeat case_match; done.
Qed.

Lemma leave_block_serial (line : string) (st : scan) :
  serial_only_context (leave_block line st)
  = negb (else_line line) && serial_only_context st.
Proof. unfold leave_block, else_line. by case_match. Qed.

Lemma describe_serial_only (lines : list string) (i : nat) (st : scan)
    (m : mobj) :
  serial_only (describe lines i st m)
  = serial_only_context st
    || is_serial_only_command (name (describe lines i st m)).
Proof.
  unfold describe. destruct (full_command _ _ _), (lookahead _ _). done.
Qed.

(** The context is on at turn [i] when a marker line before [i] is
    followed by no line that begins a new branch. *)
Lemma serial_context_span (lines : list string) (i : nat) :
  serial_only_context (scan_before lines i) = true
  ↔ ∃ j, j < i ∧ has_marker (item lines j) = true
         ∧ ∀ k, j ≤ k < i → else_line (item lines k) = false.
Proof.
  induction i as [|i IH].
  - split; [done|]. intros (j & Hj & _). lia.
  - rewrite scan_before_S, leave_block_serial, track_serial.
    rewrite andb_true_iff, negb_true_iff, orb_true_iff, IH. split.
    + intros [He [Hm|(j & Hj & Hm & Hk)]].
      * exists i. split; [lia|]. split; [done|].
        intros k Hk. by replace k with i by lia.
      * exists j. split; [lia|]. split; [done|].
        intros k Hk'. destruct (decide (k = i)) as [->|]; [done|].
        apply Hk. lia.
    + intros (j & Hj & Hm & Hk). split; [apply Hk; lia|].
      destruct (decide (j = i)) as [->|]; [by left|].
      right. exists j. split; [lia|]. split; [done|].
      intros k Hk'. apply Hk. lia.
Qed.

(** X7.  The descriptor built at line [i] is serial-only exactly when
    its name is in the fixed list, or some line [j <= i] holds the
    marker [sender_timestamp == 0] and no line from [j] up to, but not
    including, [i] begins with [} else]. *)
Theorem serial_only_scope (lines : list string) (i : nat) (d : command) :
  candidate lines i = Some d →
  serial_only d = true
  ↔ is_serial_only_command (name d) = true
    ∨ ∃ j, j ≤ i ∧ has_marker (item lines j) = true
           ∧ ∀ k, j ≤ k < i → else_line (item lines k) = false.
Proof.
  intros H. apply candidate_token in H as (m & _ & ->).
  rewrite describe_serial_only, track_serial.
  rewrite !orb_true_iff, serial_context_span. split.
  - intros [[Hm|(j & Hj & Hm & Hk)]|Hn]; [|right..|by left].
    + right. exists i. split; [done|]. split; [done|]. intros k Hk. lia.
    + exists j. split; [lia|]. by split.
  - intros [Hn|(j & Hj & Hm & Hk)]; [by right|]. left.
    destruct (decide (j = i)) as [->|]; [by left|].
    right. exists j. split; [lia|]. by split.
Qed.

Lemma serial_only_scope_witness :
  candidate serial_erase 1 = Some erase_command
  ∧ (serial_only erase_command = true
     ↔ is_serial_only_command (name erase_command) = true
       ∨ ∃ j, j ≤ 1 ∧ has_marker (item serial_erase j) = true
              ∧ ∀ k, j ≤ k < 1 → else_line (item serial_erase k) = false).
Proof.
  assert (candidate serial_erase 1 = Some erase_command) as H.
  { vm_compute. reflexivity. }
  split; [exact H|]. exact (serial_only_scope serial_erase 1 _ H).
Defined.

(** ** Names are trimmed *)

Lemma rstrip_idemp (s : string) : rstrip (rstrip s) = rstrip s.
Proof.
  induction s as [|c s IH]; simpl; [done|].
  destruct (rstrip s) as [|b r] eqn:E.
  - destruct (isspace c) eqn:Ec; simpl; [done|]. by rewrite Ec.
  - simpl in *. by rewrite IH.
Qed.

Lemma rstrip_head (c : ascii) (s : string) :
  isspace c = false → ∃ t, rstrip (String c s) = String c t.
Proof.
  intros Hc. simpl. destruct (rstrip s) as [|b r].
  - rewrite Hc. by eexists.
  - by eexists.
Qed.

Lemma lstrip_head (s : string) :
  lstrip s = "" ∨ ∃ c t, lstrip s = String c t ∧ isspace c = false.
Proof.
  induction s as [|c s IH]; simpl; [by left|].
  destruct (isspace c) eqn:Ec; [done|]. right. by exists c, s.
Qed.

Lemma strip_head (s : string) :
  strip s = "" ∨ ∃ c t, strip s = String c t ∧ isspace c = false.
Proof.
  unfold strip. destruct (lstrip_head s) as [->|(c & t & -> & Hc)].
  - by left.
  - right. destruct (rstrip_head c t Hc) as [t' ->]. by exists c, t'.
Qed.

Lemma strip_idemp (s : string) : strip (strip s) = strip s.
Proof.
  destruct (strip_head s) as [->|(c & t & E & Hc)]; [done|].
  unfold strip at 1. rewrite E. simpl lstrip. rewrite Hc.
  rewrite <- E. unfold strip. apply rstrip_idemp.
Qed.

Lemma rstrip_app (p y : string) :
  rstrip y ≠ "" → rstrip (p +:+ y) = p +:+ rstrip y.
Proof.
  intros Hy. induction p as [|a p IH]; [done|].
  change (String a p +:+ y) with (String a (p +:+ y)).
  change (String a p +:+ rstrip y) with (String a (p +:+ rstrip y)).
  cbn [rstrip]. rewrite IH.
  destruct (p +:+ rstrip y) as [|b r] eqn:E; [|done].
  destruct p; simpl in E; [done|discriminate].
Qed.

Lemma strip_prefixed (c : ascii) (p x : string) :
  isspace c = false →
  strip (String c p +:+ strip x) = String c p +:+ strip x ∨ strip x = "".
Proof.
  intros Hc. destruct (strip x) as [|b t] eqn:E; [by right|]. left.
  unfold strip at 1.
  change (String c p +:+ String b t) with (String c (p +:+ String b t)).
  cbn [lstrip]. rewrite Hc.
  change (String c (p +:+ String b t)) with (String c p +:+ String b t).
  assert (rstrip (String b t) = String b t) as Hr.
  { rewrite <- E. unfold strip. apply rstrip_idemp. }
  rewrite rstrip_app; rewrite Hr; done.
Qed.

(** X8.  The name of a descriptor carries no blank at either end:
    stripping it changes nothing.  The one exception is a [config]
    literal made of blanks inside a get or set block, whose name is the
    bare prefix [get ] or [set ]. *)
Theorem names_trimmed (cpp_source : string) (d : command) :
  d ∈ parse_commands cpp_source →
  strip (name d) = name d ∨ name d = "get " ∨ name d = "set ".
Proof.
  intros H. apply parse_lines_candidate in H as (i & _ & Hc).
  apply candidate_token in Hc as (m & _ & ->).
  rewrite describe_name. unfold full_command.
  destruct (String.eqb _ "config"); [|left; apply strip_idemp].
  destruct (in_get_block _); cbn [fst].
  { destruct (strip_prefixed "g" "et " (group_str 2 m) eq_refl) as [H|H].
    - by left.
    - right; left. by rewrite H. }
  destruct (in_set_block _); cbn [fst]; [|left; apply strip_idemp].
  destruct (strip_prefixed "s" "et " (group_str 2 m) eq_refl) as [H|H].
  - by left.
  - right; right. by rewrite H.
Qed.

Lemma names_trimmed_witness :
  get_freq_command ∈ parse_commands get_freq
  ∧ (strip (name get_freq_command) = name get_freq_command
     ∨ name get_freq_command = "get " ∨ name get_freq_command = "set ").
Proof.
  assert (get_freq_command ∈ parse_commands get_freq) as H.
  { vm_compute. apply list_elem_of_further, list_elem_of_here. }
  split; [exact H|]. exact (names_trimmed get_freq _ H).
Defined.
Import ReShape.

(** ** The matcher only returns matches the pattern allows *)

Section Sound.
Implicit Types (r : regex) (s p l : string) (caps : captures).

Lemma append_cons (a : ascii) p s : String a p +:+ s = String a (p +:+ s).
Proof. reflexivity. Qed.

Lemma append_nil_l s : "" +:+ s = s.
Proof. reflexivity. Qed.

Lemma append_length (a b : string) :
  String.length (a +:+ b) = String.length a + String.length b.
Proof.
  induction a as [|c a IH]; [done|]. rewrite append_cons. simpl.
  by rewrite IH.
Qed.

Lemma take_str_app p s : take_str (String.length p) (p +:+ s) = p.
Proof.
  induction p as [|c p IH]; [by destruct s|]. rewrite append_cons. simpl.
  by rewrite IH.
Qed.

Lemma drop_str_app p s : drop_str (String.length p) (p +:+ s) = s.
Proof.
  induction p as [|c p IH]; [by destruct s|]. rewrite append_cons. by simpl.
Qed.

Lemma append_assoc (a b c : string) : (a +:+ b) +:+ c = a +:+ (b +:+ c).
Proof.
  induction a as [|x a IH]; [done|]. rewrite !append_cons. by rewrite IH.
Qed.

Lemma consumed_app p s :
  String.length (p +:+ s) - String.length s = String.length p.
Proof. rewrite append_length. lia. Qed.

Lemma after_prefix_app l s s' : after_prefix l s = Some s' → s = l +:+ s'.
Proof.
  revert s. induction l as [|a l IH]; intros s H.
  - destruct s; simpl in H; injection H as <-; reflexivity.
  - destruct s as [|b s]; simpl in H; [done|].
    destruct (Ascii.eqb_spec a b) as [->|]; [|done].
    rewrite append_cons. f_equal. by apply IH.
Qed.

Lemma star_sound {A : Type} (cl : cclass) s (k : string → option A) x :
  star cl s k = Some x →
  ∃ p s', s = p +:+ s' ∧ all_in cl p = true ∧ k s' = Some x.
Proof.
  induction s as [|a s IH]; simpl; intros H.
  - by exists "", "".
  - destruct (cmatch cl a) eqn:Ea; [|by exists "", (String a s)].
    destruct (star cl s k) as [y|] eqn:Es.
    + injection H as ->. destruct (IH eq_refl) as (p & s' & -> & Hp & Hk).
      exists (String a p), s'. rewrite append_cons. simpl. by rewrite Ea, Hp.
    + by exists "", (String a s).
Qed.

Lemma rmatch_sound {A : Type} r s caps
    (k : string → captures → option A) x :
  rmatch r s caps k = Some x →
  ∃ p s' caps', s = p +:+ s' ∧ matches r p caps caps'
                ∧ k s' caps' = Some x.
Proof.
  revert s caps k. induction r as [l|cl|cl|cl|r IH|r1 IH1 r2 IH2|r1 IH1 r2 IH2|n r IH];
    intros s caps k H; simpl in H.
  - destruct (after_prefix l s) as [s'|] eqn:E; [|done].
    apply after_prefix_app in E. exists l, s', caps. split; [done|].
    split; [constructor|done].
  - destruct s as [|a s]; [done|]. destruct (cmatch cl a) eqn:Ea; [|done].
    exists (String a ""), s, caps. split; [done|]. split; [by constructor|done].
  - apply star_sound in H as (p & s' & -> & Hp & Hk).
    exists p, s', caps. split; [done|]. split; [by constructor|done].
  - destruct s as [|a s]; [done|]. destruct (cmatch cl a) eqn:Ea; [|done].
    apply star_sound in H as (p & s' & -> & Hp & Hk).
    exists (String a p), s', caps. split; [done|].
    split; [by constructor|done].
  - destruct (rmatch r s caps k) as [y|] eqn:E.
    + injection H as ->. apply IH in E as (p & s' & caps' & -> & Hm & Hk).
      exists p, s', caps'. split; [done|]. split; [by apply M_Opt_some|done].
    + exists "", s, caps. split; [done|]. split; [apply M_Opt_none|done].
  - destruct (rmatch r1 s caps k) as [y|] eqn:E.
    + injection H as ->. apply IH1 in E as (p & s' & caps' & -> & Hm & Hk).
      exists p, s', caps'. split; [done|]. split; [by apply M_Alt_l|done].
    + apply IH2 in H as (p & s' & caps' & -> & Hm & Hk).
      exists p, s', caps'. split; [done|]. split; [by apply M_Alt_r|done].
  - apply IH1 in H as (p1 & s1 & caps1 & -> & Hm1 & H).
    apply IH2 in H as (p2 & s2 & caps2 & -> & Hm2 & Hk).
    exists (p1 +:+ p2), s2, caps2. split.
    + by rewrite append_assoc.
    + split; [by econstructor|done].
  - apply IH in H as (p & s' & caps' & -> & Hm & Hk).
    rewrite consumed_app, take_str_app in Hk.
    exists p, s', ((n, p) :: caps'). split; [done|].
    split; [by constructor|done].
Qed.

Lemma match_here_sound r s n caps :
  match_here r s = Some (n, caps) →
  ∃ p s', s = p +:+ s' ∧ n = String.length p ∧ matches r p [] caps.
Proof.
  unfold match_here. intros H.
  apply rmatch_sound in H as (p & s' & caps' & -> & Hm & [= <- <-]).
  exists p, s'. by rewrite consumed_app.
Qed.

(** A match object found by [search] holds a text the pattern allows,
    with its groups. *)
Lemma search_from_sound r s i m :
  search_from r s i = Some m → matches r (m_text m) [] (m_caps m).
Proof.
  revert i. induction s as [|a s IH]; intros i; simpl.
  - destruct (match_here r "") as [[n caps]|] eqn:E; [|done].
    intros [= <-]. simpl.
    apply match_here_sound in E as (p & s' & E & -> & Hm).
    rewrite E, take_str_app. done.
  - destruct (match_here r (String a s)) as [[n caps]|] eqn:E.
    + intros [= <-]. cbn [m_text m_caps].
      apply match_here_sound in E as (p & s' & E & -> & Hm).
      rewrite E, take_str_app. done.
    + apply IH.
Qed.

Lemma search_sound r s m :
  search r s = Some m → matches r (m_text m) [] (m_caps m).
Proof. apply search_from_sound. Qed.

Lemma finditer_go_sound r s i skip m :
  m ∈ finditer_go r s i skip → matches r (m_text m) [] (m_caps m).
Proof.
  revert i skip. induction s as [|a s IH]; intros i [|k]; simpl.
  - destruct (match_here r "") as [[n caps]|] eqn:E;
      [|by intros ?%not_elem_of_nil].
    intros ->%list_elem_of_singleton. simpl.
    apply match_here_sound in E as (p & s' & E & -> & Hm).
    rewrite E, take_str_app. done.
  - by intros ?%not_elem_of_nil.
  - destruct (match_here r (String a s)) as [[n caps]|] eqn:E; [|apply IH].
    intros [->|H]%elem_of_cons; [|by eapply IH].
    cbn [m_text m_caps].
    apply match_here_sound in E as (p & s' & E & -> & Hm).
    rewrite E, take_str_app. done.
  - apply IH.
Qed.

End Sound.
Import MoreSamples.

(** ** The shape of a command token and of a field *)

Ltac inv_matches :=
  repeat match goal with
  | H : matches (Seq _ _) _ _ _ |- _ => inversion H; clear H; subst
  | H : matches (Group _ _) _ _ _ |- _ => inversion H; clear H; subst
  | H : matches (Lit _) _ _ _ |- _ => inversion H; clear H; subst
  | H : matches (Alt _ _) _ _ _ |- _ => inversion H; clear H; subst
  | H : matches (Opt _) _ _ _ |- _ => inversion H; clear H; subst
  | H : matches (Star _) _ _ _ |- _ => inversion H; clear H; subst
  | H : matches (Plus _) _ _ _ |- _ => inversion H; clear H; subst
  | H : matches (Cls _) _ _ _ |- _ => inversion H; clear H; subst
  end.

Lemma all_in_not_has_char (c : ascii) (p : string) :
  all_in (CNot c) p = true → has_char c p = false.
Proof.
  unfold has_char. induction p as [|a p IH]; simpl; [done|].
  intros [Ha Hp]%andb_true_iff. rewrite IH by done.
  rewrite orb_false_r. apply negb_true_iff in Ha.
  rewrite Ascii.eqb_sym, Ha. done.
Qed.

(** X9.  A command token compares the variable [command] or the
    variable [config]; its literal is not empty and holds no double
    quote, and its length argument is a non-empty run of digits. *)
Theorem token_shape (line : string) (m : mobj) :
  search cmd_pattern line = Some m →
  (group_str 1 m = "command" ∨ group_str 1 m = "config")
  ∧ group_str 2 m ≠ ""
  ∧ has_char "034" (group_str 2 m) = false
  ∧ group_str 3 m ≠ ""
  ∧ all_in CDigit (group_str 3 m) = true.
Proof.
  intros H. apply search_sound in H.
  destruct m as [st txt rest caps]. unfold group_str. simpl in *.
  unfold cmd_pattern, ws in H. inv_matches; simpl;
    (split; [by (left + right)|]); (split; [done|]);
    (split; [apply (all_in_not_has_char "034"); simpl;
             by apply andb_true_iff|]);
    (split; [done|]); simpl; by apply andb_true_iff.
Qed.

Lemma token_shape_witness :
  search cmd_pattern clock_sync = Some clock_sync_token
  ∧ (group_str 1 clock_sync_token = "command"
     ∨ group_str 1 clock_sync_token = "config")
  ∧ group_str 2 clock_sync_token ≠ ""
  ∧ has_char "034" (group_str 2 clock_sync_token) = false
  ∧ group_str 3 clock_sync_token ≠ ""
  ∧ all_in CDigit (group_str 3 clock_sync_token) = true.
Proof.
  assert (search cmd_pattern clock_sync = Some clock_sync_token) as H.
  { vm_compute. reflexivity. }
  split; [exact H|]. exact (token_shape clock_sync _ H).
Defined.

Lemma field_match_shape (m : mobj) :
  matches field_pattern (m_text m) [] (m_caps m) →
  group_str 1 m ∈ field_types
  ∧ group_str 2 m ≠ "" ∧ all_in CWord (group_str 2 m) = true
  ∧ match group 3 (m_caps m) with
    | Some n => n ≠ "" ∧ all_in CDigit n = true
    | None => True
    end.
Proof.
  intros H. destruct m as [st txt rest caps]. unfold group_str. simpl in *.
  unfold field_pattern in H. inv_matches; simpl;
    (split; [unfold field_types;
             repeat first [apply list_elem_of_here
                          |apply list_elem_of_further]|]);
    (split; [done|]); (split; [by apply andb_true_iff|]);
    first [done | split; [done|by apply andb_true_iff]].
Qed.

Lemma fold_add_field_Forall (P : string → field → Prop) (ms : list mobj)
    (acc : gmap string field) :
  map_Forall P acc →
  Forall (λ m, ∀ prefs, P (group_str 2 m)
                          (default (Field "" None)
                             (add_field prefs m !! group_str 2 m))) ms →
  map_Forall P (fold_left add_field ms acc).
Proof.
  revert acc. induction ms as [|m ms IH]; intros acc Hacc Hms; simpl;
    [done|].
  apply Forall_cons in Hms as [Hm Hms]. apply IH; [|done].
  specialize (Hm acc). unfold add_field in *.
  rewrite lookup_insert_eq in Hm. simpl in Hm.
  by apply map_Forall_insert_2.
Qed.

(** X10.  Every entry of the mapping [parse_prefs_struct] returns has
    one of the seven known types and a name that is a non-empty run of
    word characters. *)
Theorem prefs_well_formed (header_source name : string) (f : field) :
  parse_prefs_struct header_source !! name = Some f →
  f_type f ∈ field_types
  ∧ name ≠ "" ∧ all_in CWord name = true.
Proof.
  unfold parse_prefs_struct.
  destruct (search struct_pattern header_source) as [sm|]; [|done].
  revert name f. apply map_Forall_lookup.
  apply fold_add_field_Forall; [apply map_Forall_empty|].
  apply Forall_forall. intros m Hm prefs.
  apply finditer_go_sound, field_match_shape in Hm as (H1 & H2 & H3 & _).
  unfold add_field. rewrite lookup_insert_eq. simpl. done.
Qed.

Lemma prefs_well_formed_witness :
  parse_prefs_struct node_prefs !! "node_name"
  = Some (Field "char" (Some 32%N))
  ∧ f_type (Field "char" (Some 32%N)) ∈ field_types
  ∧ "node_name" ≠ "" ∧ all_in CWord "node_name" = true.
Proof.
  assert (parse_prefs_struct node_prefs !! "node_name"
          = Some (Field "char" (Some 32%N))) as H.
  { vm_compute. reflexivity. }
  split; [exact H|]. exact (prefs_well_formed node_prefs _ _ H).
Defined.
Import Registry.

(** ** The order of the sort keys *)

Section KeyOrder.

Lemma ascii_compare_refl (a : ascii) : Ascii.compare a a = Eq.
Proof. unfold Ascii.compare. apply N.compare_refl. Qed.

Lemma ascii_compare_trans (a b c : ascii) (o : comparison) :
  Ascii.compare a b = o → Ascii.compare b c = o → Ascii.compare a c = o.
Proof.
  unfold Ascii.compare. destruct o; intros H1 H2.
  - apply N.compare_eq_iff in H1. apply N.compare_eq_iff in H2.
    rewrite H1, H2. apply N.compare_refl.
  - apply N.compare_lt_iff in H1. apply N.compare_lt_iff in H2.
    apply N.compare_lt_iff. by eapply N.lt_trans.
  - apply N.compare_gt_iff in H1. apply N.compare_gt_iff in H2.
    apply N.compare_gt_iff. by eapply N.lt_trans.
Qed.

Lemma compare_refl (s : string) : String.compare s s = Eq.
Proof.
  induction s as [|a s IH]; simpl; [done|]. by rewrite ascii_compare_refl.
Qed.

Lemma compare_lt_trans (s1 s2 s3 : string) :
  str_lt s1 s2 → str_lt s2 s3 → str_lt s1 s3.
Proof.
  unfold str_lt. revert s2 s3.
  induction s1 as [|a s1 IH]; intros [|b s2] [|c s3]; simpl; try done.
  destruct (Ascii.compare a b) eqn:Eab; [|intros _|done].
  - apply Ascii.compare_eq_iff in Eab as ->.
    destruct (Ascii.compare b c); [apply IH|done..].
  - destruct (Ascii.compare b c) eqn:Ebc; [|intros _|done].
    + apply Ascii.compare_eq_iff in Ebc as <-. by rewrite Eab.
    + by rewrite (ascii_compare_trans a b c Lt).
Qed.

Lemma compare_gt_lt (s1 s2 : string) :
  String.compare s1 s2 = Gt ↔ str_lt s2 s1.
Proof.
  unfold str_lt. rewrite (String.compare_antisym s2 s1).
  destruct (String.compare s1 s2); simpl; split; done.
Qed.

Lemma leb_trans (s1 s2 s3 : string) :
  String.leb s1 s2 = true → String.leb s2 s3 = true →
  String.leb s1 s3 = true.
Proof.
  unfold String.leb.
  destruct (String.compare s1 s2) eqn:E12; [|intros _|done].
  - by apply String.compare_eq_iff in E12 as ->.
  - destruct (String.compare s2 s3) eqn:E23; [|intros _|done].
    + apply String.compare_eq_iff in E23 as <-. by rewrite E12.
    + by rewrite (compare_lt_trans s1 s2 s3).
Qed.

Lemma key_le_total (a b : command) :
  key_le a b = false → key_le b a = true.
Proof.
  unfold key_le. rewrite (String.compare_antisym (category b)).
  destruct (String.compare (category a) (category b)); simpl; try done.
  intros H. destruct (String.leb_total (name a) (name b)); congruence.
Qed.

Lemma key_le_trans (a b c : command) :
  key_le a b = true → key_le b c = true → key_le a c = true.
Proof.
  unfold key_le.
  destruct (String.compare (category a) (category b)) eqn:Eab; [| |done].
  - apply String.compare_eq_iff in Eab. rewrite Eab.
    destruct (String.compare (category b) (category c)); [|done..].
    apply leb_trans.
  - intros _.
    destruct (String.compare (category b) (category c)) eqn:Ebc; [| |done];
      intros _.
    + apply String.compare_eq_iff in Ebc. by rewrite <- Ebc, Eab.
    + by rewrite (compare_lt_trans _ _ _ Eab Ebc).
Qed.

End KeyOrder.

(** ** Sorting *)

Lemma insert_sorted_perm (x : command) (l : list command) :
  insert_sorted x l ≡ₚ x :: l.
Proof.
  induction l as [|y l IH]; simpl; [done|].
  destruct (key_le x y); [done|]. rewrite IH. apply Permutation_swap.
Qed.

Lemma insert_sorted_sorted (x : command) (l : list command) :
  StronglySorted (λ a b, key_le a b = true) l →
  StronglySorted (λ a b, key_le a b = true) (insert_sorted x l).
Proof.
  induction 1 as [|y l Hl IH Hy]; simpl.
  - repeat constructor.
  - destruct (key_le x y) eqn:E.
    + constructor; [by constructor|]. constructor; [done|].
      eapply Forall_impl; [exact Hy|]. intros z Hz. simpl in Hz.
      by eapply key_le_trans.
    + constructor; [done|].
      rewrite insert_sorted_perm. constructor; [|done].
      by apply key_le_total.
Qed.

Lemma sort_commands_perm (l : list command) : sort_commands l ≡ₚ l.
Proof.
  induction l as [|x l IH]; simpl; [done|].
  rewrite insert_sorted_perm. by rewrite IH.
Qed.

Lemma sort_commands_sorted (l : list command) :
  StronglySorted (λ a b, key_le a b = true) (sort_commands l).
Proof.
  induction l as [|x l IH]; simpl; [constructor|].
  by apply insert_sorted_sorted.
Qed.

Lemma same_key_le (d x y : command) :
  same_key d x = true → same_key d y = true → key_le x y = true.
Proof.
  unfold same_key, key_le.
  intros [Hc Hn]%andb_true_iff [Hc' Hn']%andb_true_iff.
  apply String.eqb_eq in Hc, Hn, Hc', Hn'.
  rewrite Hc, Hc', Hn, Hn', compare_refl.
  unfold String.leb. by rewrite compare_refl.
Qed.

Lemma insert_sorted_stable (d x : command) (l : list command) :
  filter (λ y, same_key d y = true) (insert_sorted x l)
  = filter (λ y, same_key d y = true) (x :: l).
Proof.
  induction l as [|y l IH]; simpl; [done|].
  destruct (key_le x y) eqn:E; [done|].
  rewrite filter_cons, IH, !filter_cons.
  destruct (decide (same_key d y = true)) as [Hy|Hy]; [|done].
  destruct (decide (same_key d x = true)) as [Hx|Hx]; [|done].
  rewrite (same_key_le d x y) in E; done.
Qed.

Lemma sort_commands_stable (d : command) (l : list command) :
  filter (λ y, same_key d y = true) (sort_commands l)
  = filter (λ y, same_key d y = true) l.
Proof.
  induction l as [|x l IH]; simpl; [done|].
  by rewrite insert_sorted_stable, !filter_cons, IH.
Qed.

(** X11.  The commands of the registry are the given commands, each as
    often as it was given, in ascending order of category and then of
    name, and commands of the same category and name keep the order
    they were given in; [total_commands] is their number. *)
Theorem registry_commands_sorted (today : string) (commands : list command)
    (prefs : gmap string field) :
  let reg := generate_registry today commands prefs in
  r_commands reg ≡ₚ commands
  ∧ StronglySorted (λ a b, key_le a b = true) (r_commands reg)
  ∧ (∀ d, filter (λ x, same_key d x = true) (r_commands reg)
          = filter (λ x, same_key d x = true) commands)
  ∧ r_total_commands reg = length commands.
Proof.
  simpl. split; [apply sort_commands_perm|].
  split; [apply sort_commands_sorted|].
  split; [intros d; apply sort_commands_stable|].
  by rewrite sort_commands_perm.
Qed.
Import Registry RegistryFacts.

(** ** Grouping by category *)

Section Groups.
Implicit Types (gs : list (string * list command)) (x d : command)
  (c : string) (l : list command).

Lemma group_of_add gs x c :
  group_of (group_add gs x) c
  = if String.eqb (category x) c
    then Some (default [] (group_of gs c) ++ [x])
    else group_of gs c.
Proof.
  induction gs as [|[k v] gs IH]; simpl.
  - by destruct (String.eqb (category x) c).
  - destruct (String.eqb_spec k (category x)) as [->|Hk]; simpl.
    + by destruct (String.eqb_spec (category x) c).
    + rewrite IH. destruct (String.eqb_spec (category x) c) as [E|E];
        [|done].
      rewrite <- E. by destruct (String.eqb_spec k (category x)).
Qed.

Lemma of_category_snoc c l x :
  of_category c (l ++ [x])
  = of_category c l ++ (if String.eqb (category x) c then [x] else []).
Proof.
  unfold of_category. rewrite filter_app. f_equal.
  rewrite filter_cons, filter_nil.
  destruct (String.eqb_spec (category x) c).
  - by rewrite decide_True.
  - by rewrite decide_False.
Qed.

Lemma group_of_fold l gs seen :
  (∀ c, group_of gs c = nonempty_list (of_category c seen)) →
  ∀ c, group_of (fold_left group_add l gs) c
       = nonempty_list (of_category c (seen ++ l)).
Proof.
  revert gs seen. induction l as [|x l IH]; intros gs seen H c; simpl.
  - by rewrite app_nil_r.
  - rewrite (IH _ (seen ++ [x])); [by rewrite <- app_assoc|].
    intros c'. rewrite group_of_add, of_category_snoc, H.
    destruct (String.eqb (category x) c'); [|by rewrite app_nil_r].
    by destruct (of_category c' seen).
Qed.

Lemma keys_add gs x :
  fst <$> group_add gs x
  = if decide (category x ∈ fst <$> gs) then fst <$> gs
    else (fst <$> gs) ++ [category x].
Proof.
  induction gs as [|[k v] gs IH].
  - simpl group_add. destruct (decide _) as [H|H]; [|done].
    by apply not_elem_of_nil in H.
  - cbn [group_add]. destruct (String.eqb_spec k (category x)) as [E|Hk].
    + destruct (decide (category x ∈ ((k, v) :: gs).*1)) as [H|H];
        [by rewrite !fmap_cons|].
      exfalso. apply H. rewrite fmap_cons, E. apply list_elem_of_here.
    + rewrite fmap_cons, IH. cbn [fst].
      destruct (decide (category x ∈ fst <$> gs)) as [Hin|Hin];
        destruct (decide (category x ∈ ((k, v) :: gs).*1)) as [H|H];
        try done; exfalso.
      * apply H. rewrite fmap_cons. by apply list_elem_of_further.
      * rewrite fmap_cons in H.
        apply elem_of_cons in H as [H|H]; [by apply Hk|by apply Hin].
Qed.

Lemma keys_NoDup l gs :
  NoDup (fst <$> gs) → NoDup (fst <$> fold_left group_add l gs).
Proof.
  revert gs. induction l as [|x l IH]; intros gs H; simpl; [done|].
  apply IH. rewrite keys_add. destruct (decide _); [done|].
  apply NoDup_app. split; [done|]. split; [|apply NoDup_singleton].
  intros y Hy ->%list_elem_of_singleton. done.
Qed.

Lemma group_of_keys gs c : c ∈ fst <$> gs ↔ is_Some (group_of gs c).
Proof.
  induction gs as [|[k v] gs IH]; simpl.
  - split; [by intros ?%not_elem_of_nil|by intros [? ?]].
  - rewrite elem_of_cons, IH.
    destruct (String.eqb_spec k c) as [->|Hk].
    + split; [by eexists|by left].
    + split; [by intros [?|?]|by right].
Qed.

End Groups.

(** X12.  In the registry, the categories are pairwise different; they
    are the categories that occur among the commands; and the list kept
    under a category holds the commands of that category and no others,
    in the order of the sorted command list. *)
Theorem registry_groups (today : string) (commands : list command)
    (prefs : gmap string field) :
  let reg := generate_registry today commands prefs in
  NoDup (r_categories reg)
  ∧ (∀ cat, cat ∈ r_categories reg
            ↔ ∃ d, d ∈ commands ∧ category d = cat)
  ∧ (∀ cat, group_of (r_commands_by_category reg) cat
            = nonempty_list (of_category cat (r_commands reg))).
Proof.
  simpl.
  assert (∀ c, group_of (fold_left group_add (sort_commands commands) []) c
               = nonempty_list (of_category c (sort_commands commands)))
    as Hg by (by apply (group_of_fold _ [] [])).
  split; [apply keys_NoDup, NoDup_nil_2|]. split; [|done].
  intros cat. rewrite group_of_keys, Hg. unfold of_category.
  split.
  - intros [l Hl].
    destruct (filter _ _) as [|d ds] eqn:E; [done|].
    assert (d ∈ filter (λ d, category d = cat) (sort_commands commands))
      as Hd by (rewrite E; apply list_elem_of_here).
    apply list_elem_of_filter in Hd as [Hc Hd].
    exists d. split; [|done]. by rewrite <- (sort_commands_perm commands).
  - intros (d & Hd & Hc).
    assert (d ∈ filter (λ d, category d = cat) (sort_commands commands))
      as Hin.
    { apply list_elem_of_filter. split; [done|].
      by rewrite (sort_commands_perm commands). }
    destruct (filter _ _); [by apply not_elem_of_nil in Hin|by eexists].
Qed.

(** ** Flattening the groups *)

Lemma key_le_category (a b : command) :
  key_le a b = true → String.leb (category a) (category b) = true.
Proof.
  unfold key_le, String.leb.
  by destruct (String.compare (category a) (category b)).
Qed.

Lemma group_add_app gs1 gs2 x :
  category x ∉ fst <$> gs1 →
  group_add (gs1 ++ gs2) x = gs1 ++ group_add gs2 x.
Proof.
  induction gs1 as [|[k v] gs1 IH]; simpl; [done|].
  rewrite not_elem_of_cons. intros [Hk Hx].
  destruct (String.eqb_spec k (category x)); [done|]. by rewrite IH.
Qed.

Lemma concat_groups (l : list command) gs c cmds :
  StronglySorted (λ a b, key_le a b = true) l →
  (∀ d, d ∈ l → category d ∉ fst <$> gs) →
  (∀ d, d ∈ l → String.leb c (category d) = true) →
  concat (snd <$> fold_left group_add l (gs ++ [(c, cmds)]))
  = concat (snd <$> gs) ++ cmds ++ l.
Proof.
  intros Hs. revert gs c cmds.
  induction Hs as [|x l Hl IH Hx]; intros gs c cmds Hgs Hc; simpl.
  - rewrite fmap_app, concat_app. simpl. by rewrite !app_nil_r.
  - rewrite group_add_app by (apply Hgs, list_elem_of_here). simpl.
    destruct (String.eqb_spec c (category x)) as [->|Hne].
    + rewrite IH.
      * by rewrite <- app_assoc.
      * intros d Hd. by apply Hgs, list_elem_of_further.
      * intros d Hd. by apply Hc, list_elem_of_further.
    + change (gs ++ [(c, cmds); (category x, [x])])
        with (gs ++ [(c, cmds)] ++ [(category x, [x])]).
      rewrite app_assoc, IH.
      * rewrite fmap_app, concat_app. simpl.
        by rewrite app_nil_r, <- app_assoc.
      * intros d Hd. rewrite fmap_app. simpl.
        rewrite not_elem_of_app. split;
          [by apply Hgs, list_elem_of_further|].
        intros E%list_elem_of_singleton. apply Hne.
        apply String.leb_antisym; [apply Hc, list_elem_of_here|].
        rewrite <- E. rewrite Forall_forall in Hx.
        by apply key_le_category, Hx.
      * intros d Hd. rewrite Forall_forall in Hx.
        by apply key_le_category, Hx.
Qed.

(** X13.  The lists of [commands_by_category], taken in the order of
    [categories] and put end to end, are the list [commands]: the
    registry groups the sorted commands into consecutive runs. *)
Theorem registry_groups_flatten (today : string) (commands : list command)
    (prefs : gmap string field) :
  let reg := generate_registry today commands prefs in
  concat (snd <$> r_commands_by_category reg) = r_commands reg
  ∧ fst <$> r_commands_by_category reg = r_categories reg.
Proof.
  simpl. split; [|done].
  pose proof (sort_commands_sorted commands) as Hs.
  destruct (sort_commands commands) as [|x l]; [done|].
  apply StronglySorted_inv in Hs as [Hl Hx]. cbn [fold_left group_add].
  change [(category x, [x])] with ([] ++ [(category x, [x])]).
  rewrite (concat_groups l [] (category x) [x]); [done|done|..].
  - intros d Hd. apply not_elem_of_nil.
  - intros d Hd. rewrite Forall_forall in Hx.
    by apply key_le_category, Hx.
Qed.
Import Occur.

(** ** Occurrences in a concatenation *)

Section Occurrences.
Implicit Types (a b c d p n s t u v : string).

Lemma append_nil_r s : s +:+ "" = s.
Proof. induction s as [|x s IH]; [done|]. by rewrite append_cons, IH. Qed.

Lemma append_eq_nil a b : a +:+ b = "" → a = "" ∧ b = "".
Proof. destruct a; [done|]. by rewrite append_cons. Qed.

Lemma length_zero s : String.length s = 0 → s = "".
Proof. by destruct s. Qed.

Lemma startswith_spec s p : startswith s p = true ↔ ∃ t, s = p +:+ t.
Proof.
  revert s. induction p as [|x p IH]; intros s.
  - split; [by exists s|by destruct s].
  - destruct s as [|y s]; simpl.
    + split; [done|]. intros [t H]. by rewrite append_cons in H.
    + rewrite andb_true_iff, IH, Ascii.eqb_eq. split.
      * intros [-> [t ->]]. by exists t.
      * intros [t H]. rewrite append_cons in H. injection H as -> ->.
        split; [done|by exists t].
Qed.

Lemma startswith_nil s : startswith s "" = true.
Proof. apply startswith_spec. by exists s. Qed.

Lemma contains_spec p s : contains p s = true ↔ occurs p s.
Proof.
  unfold occurs. induction s as [|x s IH]; cbn [contains].
  - rewrite orb_false_r, startswith_spec. split.
    + intros [t H]. symmetry in H. apply append_eq_nil in H as [-> ->].
      by exists "", "".
    + intros (a & b & H). symmetry in H.
      apply append_eq_nil in H as [-> H].
      apply append_eq_nil in H as [-> ->]. by exists "".
  - rewrite orb_true_iff, startswith_spec, IH. split.
    + intros [[t H]|(a & b & ->)].
      * by exists "", t.
      * by exists (String x a), b.
    + intros ([|y a] & b & H).
      * left. by exists b.
      * right. rewrite append_cons in H. injection H as -> ->.
        by exists a, b.
Qed.

Lemma not_contains_spec p s : contains p s = false ↔ ¬ occurs p s.
Proof. rewrite <- contains_spec. by destruct (contains p s). Qed.

Lemma occurs_app_l p a b : occurs p a → occurs p (a +:+ b).
Proof.
  intros (u & v & ->). exists u, (v +:+ b). by rewrite !append_assoc.
Qed.

Lemma occurs_app_r p a b : occurs p b → occurs p (a +:+ b).
Proof.
  intros (u & v & ->). exists (a +:+ u), v. by rewrite !append_assoc.
Qed.

Lemma occurs_trans p n s : occurs p n → occurs n s → occurs p s.
Proof.
  intros (u & v & ->) (u' & v' & ->).
  exists (u' +:+ u), (v +:+ v'). by rewrite !append_assoc.
Qed.

Lemma app_eq_app a b c d :
  a +:+ b = c +:+ d →
  (∃ t, a = c +:+ t ∧ d = t +:+ b) ∨ (∃ t, c = a +:+ t ∧ b = t +:+ d).
Proof.
  revert c. induction a as [|x a IH]; intros c H.
  - right. by exists c.
  - destruct c as [|y c].
    + left. by exists (String x a).
    + rewrite !append_cons in H. injection H as -> H.
      destruct (IH c H) as [(t & -> & ->)|(t & -> & ->)].
      * left. by exists t.
      * right. by exists t.
Qed.

(** An occurrence in [a +:+ b] lies in [a], in [b], or across the
    seam. *)
Lemma occurs_app p a b :
  occurs p (a +:+ b) →
  occurs p a ∨ occurs p b
  ∨ ∃ p1 p2, p = p1 +:+ p2 ∧ p1 ≠ "" ∧ p2 ≠ ""
             ∧ (∃ t, a = t +:+ p1) ∧ (∃ t, b = p2 +:+ t).
Proof.
  intros (u & v & H).
  destruct (app_eq_app _ _ _ _ H) as [(t & -> & H')|(t & -> & ->)].
  - symmetry in H'.
    destruct (app_eq_app _ _ _ _ H') as [(t' & -> & ->)|(t' & -> & ->)].
    + left. by exists u, t'.
    + destruct t as [|x t].
      { right; left. by exists "", v. }
      destruct t' as [|y t'].
      { left. exists u, "". by rewrite !append_nil_r. }
      right; right. exists (String x t), (String y t').
      repeat split; [done|done|by exists u|by exists v].
  - right; left. by exists t, v.
Qed.

Lemma border_spec a b :
  border a b = true
  ↔ ∃ u v, a = u +:+ v ∧ v ≠ "" ∧ startswith b v = true.
Proof.
  induction a as [|x a IH]; cbn [border].
  - split; [done|]. intros (u & v & H & Hv & _). symmetry in H.
    by apply append_eq_nil in H as [_ ->].
  - rewrite orb_true_iff, IH. split.
    + intros [H|(u & v & -> & Hv & H)].
      * by exists "", (String x a).
      * by exists (String x u), v.
    + intros ([|y u] & v & H & Hv & Hs).
      * left. rewrite append_nil_l in H. by rewrite H.
      * right. rewrite append_cons in H. injection H as -> ->.
        by exists u, v.
Qed.

(** An occurrence in [a +:+ n +:+ b] that lies neither in [a] nor in
    [b] shares characters with [n]. *)
Lemma occurs_around p a n b :
  occurs p (a +:+ n +:+ b) →
  occurs p a ∨ occurs p b ∨ touches p n = true.
Proof.
  unfold touches. rewrite !orb_true_iff, !contains_spec, !border_spec.
  intros H. apply occurs_app in H
    as [H|[H|(p1 & p2 & -> & H1 & H2 & [t ->] & [t' H])]].
  - by left.
  - apply occurs_app in H
      as [H|[H|(p1 & p2 & -> & H1 & H2 & [t ->] & [t' ->])]].
    + right; right. by left; left; left.
    + by right; left.
    + right; right. right. exists t, p1. split; [done|]. split; [done|].
      apply startswith_spec. by exists p2.
  - right; right.
    destruct (app_eq_app _ _ _ _ H) as [(w & -> & ->)|(w & -> & ->)].
    + left; right. exists p1, p2. split; [done|]. split; [done|].
      apply startswith_spec. by exists w.
    + left; left; right. by exists p1, w.
Qed.

End Occurrences.
Import Occur.

(** ** What [str.replace] does to occurrences *)

Section Replace.
Variables (old new : string).
Hypothesis old_nonempty : old ≠ "".
Implicit Types (a b p g s x y r pre : string) (k : nat).

Lemma append_inv_l a b c : a +:+ b = a +:+ c → b = c.
Proof.
  induction a as [|z a IH]; [done|]. rewrite !append_cons.
  intros [= H]. by apply IH.
Qed.

Lemma drop_str_nil k : drop_str k "" = "".
Proof. by destruct k. Qed.

Lemma drop_str_0 s : drop_str 0 s = s.
Proof. by destruct s. Qed.

Lemma subst_replaced s k pre :
  (∀ a b, pre +:+ drop_str k s = a +:+ old +:+ b → ∃ t, a = pre +:+ t) →
  replaced old new (pre +:+ drop_str k s)
    (pre +:+ subst_by (λ t, if startswith t old
                            then Some (String.length old, new) else None)
               s k).
Proof.
  destruct old as [|o old'] eqn:Eold; [done|]. clear old_nonempty.
  revert k pre. induction s as [|c s IH]; intros k pre H.
  - rewrite drop_str_nil in *.
    replace (subst_by _ "" k) with "" by (by destruct k).
    apply replaced_none. intros (a & b & E).
    destruct (H a b E) as [t ->]. rewrite append_assoc in E.
    apply append_inv_l in E. symmetry in E.
    apply append_eq_nil in E as [_ E]. by apply append_eq_nil in E as [E _].
  - destruct k as [|k]; [|apply IH, H].
    rewrite drop_str_0 in *. cbn [subst_by].
    destruct (startswith (String c s) (String o old')) eqn:E.
    + apply startswith_spec in E as [y E]. rewrite append_cons in E.
      injection E as -> ->. cbn [String.length].
      change (String o (old' +:+ y)) with (String o old' +:+ y) in *.
      apply replaced_first; [done|].
      specialize (IH (String.length old') "").
      rewrite drop_str_app, !append_nil_l in IH. apply IH.
      intros a b _. by exists a.
    + specialize (IH 0 (pre +:+ String c "")).
      rewrite drop_str_0, !append_assoc in IH. apply IH.
      intros a b E'. destruct (H a b E') as [t ->].
      rewrite append_assoc in E'. apply append_inv_l in E'.
      destruct t as [|z t].
      * rewrite append_nil_l in E'.
        assert (startswith (String c s) (String o old') = true) as Hs
          by (apply startswith_spec; by exists b).
        congruence.
      * rewrite append_cons in E'. injection E' as -> _. exists t.
        by rewrite append_assoc.
Qed.

Lemma replace_replaced s : replaced old new s (replace s old new).
Proof.
  pose proof (subst_replaced s 0 "") as H.
  rewrite drop_str_0, !append_nil_l in H. apply H.
  intros a b _. by exists a.
Qed.

Lemma occurs_old_nonempty a b x : x +:+ "" = x +:+ a +:+ old +:+ b → False.
Proof.
  intros E. apply append_inv_l in E. symmetry in E.
  apply append_eq_nil in E as [_ E]. by apply append_eq_nil in E as [E _].
Qed.

(** A text [p] that occurs neither in [s] nor across an inserted [new]
    does not occur in the result. *)
Lemma replaced_absent p s r :
  replaced old new s r → touches p new = false →
  ¬ occurs p s → ¬ occurs p r.
Proof.
  intros Hr Ht. induction Hr as [s Hs|x y r Hfirst Hr IH]; [done|].
  intros Hp Hp'. apply occurs_around in Hp' as [H|[H|H]].
  - apply Hp. by apply occurs_app_l.
  - apply IH; [|done]. intros Hy. apply Hp. by do 2 apply occurs_app_r.
  - congruence.
Qed.

(** A text [g] that no occurrence of [old] can share characters with
    stays. *)
Lemma replaced_present g s r :
  replaced old new s r → touches g old = false →
  occurs g s → occurs g r.
Proof.
  intros Hr Ht. induction Hr as [s Hs|x y r Hfirst Hr IH]; [done|].
  intros Hg. apply occurs_around in Hg as [H|[H|H]].
  - by apply occurs_app_l.
  - do 2 apply occurs_app_r. by apply IH.
  - congruence.
Qed.

(** No occurrence of [old] is left, unless [new] brings one. *)
Lemma replaced_gone s r :
  replaced old new s r → touches old new = false → ¬ occurs old r.
Proof.
  intros Hr Ht. induction Hr as [s Hs|x y r Hfirst Hr IH]; [done|].
  intros Hp. apply occurs_around in Hp as [(a & b & E)|[H|H]].
  - destruct (Hfirst a (b +:+ old +:+ y)) as [t Ea].
    { rewrite E. by rewrite !append_assoc. }
    rewrite Ea, !append_assoc in E.
    rewrite <- (append_nil_r x) in E at 1. by apply occurs_old_nonempty in E.
  - by apply IH.
  - congruence.
Qed.

(** Where [old] occurred, [new] occurs. *)
Lemma replaced_brings s r :
  replaced old new s r → occurs old s → occurs new r.
Proof.
  intros [s' Hs|x y r' _ _]; [done|]. intros _. by exists x, r'.
Qed.

Lemma replaced_same s r :
  replaced old new s r → ¬ occurs old s → r = s.
Proof.
  intros [s' Hs|x y r' _ _]; [done|]. intros H. exfalso. apply H.
  by exists x, y.
Qed.

End Replace.
Import Patcher Occur PatchFacts.

(** ** [str.replace] and insertion, in terms of [contains] *)

Section Steps.
Implicit Types (a b c g n p s old new : string).

Lemma replace_absent p s old new :
  old ≠ "" → touches p new = false →
  contains p s = false → contains p (replace s old new) = false.
Proof.
  rewrite !not_contains_spec. intros Ho Ht.
  apply replaced_absent with old new; [by apply replace_replaced|done].
Qed.

Lemma replace_present g s old new :
  old ≠ "" → touches g old = false →
  contains g s = true → contains g (replace s old new) = true.
Proof.
  rewrite !contains_spec. intros Ho Ht.
  apply replaced_present with old new; [by apply replace_replaced|done].
Qed.

Lemma replace_gone s old new :
  old ≠ "" → touches old new = false →
  contains old (replace s old new) = false.
Proof.
  rewrite not_contains_spec. intros Ho Ht.
  apply replaced_gone with new s; [done|by apply replace_replaced|done].
Qed.

Lemma replace_brings g s old new :
  old ≠ "" → contains g new = true →
  contains old s = true → contains g (replace s old new) = true.
Proof.
  rewrite !contains_spec. intros Ho Hg Hs.
  apply (occurs_trans g new); [done|].
  apply replaced_brings with old s; [by apply replace_replaced|done].
Qed.

Lemma replace_same s old new :
  old ≠ "" → contains old s = false → replace s old new = s.
Proof.
  rewrite not_contains_spec. intros Ho Hs.
  apply replaced_same with old new; [by apply replace_replaced|done].
Qed.

Lemma insert_absent p a n b :
  touches p n = false →
  contains p (a +:+ b) = false → contains p (a +:+ n +:+ b) = false.
Proof.
  rewrite !not_contains_spec. intros Ht Hp H.
  apply occurs_around in H as [H|[H|H]]; [..|congruence].
  - apply Hp. by apply occurs_app_l.
  - apply Hp. by apply occurs_app_r.
Qed.

Lemma insert_present g a n b (x : ascii) :
  has_char x g = false → startswith b (String x "") = true →
  contains g (a +:+ b) = true → contains g (a +:+ n +:+ b) = true.
Proof.
  unfold has_char. rewrite not_contains_spec, !contains_spec.
  intros Hx [t ->]%startswith_spec H.
  apply occurs_app in H
    as [H|[H|(p1 & p2 & -> & H1 & H2 & [u ->] & [v Hv])]].
  - by apply occurs_app_l.
  - by do 2 apply occurs_app_r.
  - exfalso. apply Hx. destruct p2 as [|y p2]; [done|].
    rewrite !append_cons in Hv. injection Hv as <- _.
    by exists p1, p2.
Qed.

End Steps.

(** ** The patches, one by one *)

Section Patches.
Implicit Types (c : string) (w : work).

Lemma take_drop_str (k : nat) c : take_str k c +:+ drop_str k c = c.
Proof.
  revert c. induction k as [|k IH]; intros [|x c]; simpl; try done.
  rewrite append_cons. by rewrite IH.
Qed.


Lemma drop_str_add (j k : nat) c :
  drop_str j (drop_str k c) = drop_str (k + j) c.
Proof.
  revert c. induction k as [|k IH]; intros c; simpl.
  - by rewrite ?drop_str_0.
  - destruct c as [|x c]; [by rewrite ?drop_str_nil|]. apply IH.
Qed.

Lemma find_from_found sub c (i : nat) (z : Z) :
  find_from sub c i = z → (0 ≤ z)%Z →
  ∃ j, z = Z.of_nat (i + j) ∧ startswith (drop_str j c) sub = true.
Proof.
  revert i. induction c as [|x c IH]; intros i; cbn [find_from].
  - destruct (startswith "" sub) eqn:E; [|intros; lia].
    intros <- _. exists 0. split; [f_equal; lia|done].
  - destruct (startswith (String x c) sub) eqn:E.
    + intros <- _. exists 0. split; [f_equal; lia|done].
    + intros H Hz. destruct (IH _ H Hz) as (j & -> & Hj).
      exists (S j). split; [f_equal; lia|done].
Qed.

Lemma find_at_found c sub (start : nat) :
  (0 < find_at c sub start)%Z →
  startswith (drop_str (Z.to_nat (find_at c sub start)) c) sub = true.
Proof.
  unfold find_at. destruct (_ <? _)%nat; [lia|]. intros Hz.
  destruct (find_from_found sub (drop_str start c) start _ eq_refl)
    as (j & E & Hj); [lia|].
  rewrite E, Nat2Z.id. by rewrite drop_str_add in Hj.
Qed.


(** PATCH 1 skips a text that imports [subprocess], and leaves a text
    without the line [import time] as it is. *)
Lemma patch_imports_skip w :
  contains "import subprocess" (fst w) = true → patch_imports w = w.
Proof. destruct w as [c a]. unfold patch_imports. simpl. by intros ->. Qed.


(** PATCHES 3 to 7. *)
Lemma patch_replace_text old new label w :
  fst (patch_replace old new label w)
  = if contains old (fst w) then replace (fst w) old new else fst w.
Proof.
  destruct w as [c a]. unfold patch_replace. simpl.
  by destruct (contains old c).
Qed.

(** PATCH 2 is a replacement of the literal text of its pattern. *)
Lemma match_here_init c :
  match_here init_pattern c
  = if startswith c init_literal
    then Some (String.length init_literal, [(1, init_literal)]) else None.
Proof.
  unfold match_here, init_pattern. cbn [rmatch].
  fold init_literal.
  destruct (after_prefix init_literal c) as [s'|] eqn:E.
  - apply after_prefix_app in E as ->.
    rewrite consumed_app, take_str_app.
    replace (startswith _ _) with true; [done|].
    symmetry. apply startswith_spec. by eexists.
  - destruct (startswith c init_literal) eqn:E'; [|done].
    apply startswith_spec in E' as [t ->].
    assert (after_prefix init_literal (init_literal +:+ t) = Some t) as E'';
      [|congruence].
    clear. generalize init_literal. intros l.
    induction l as [|x l IH]; [done|]. rewrite append_cons. simpl.
    by rewrite Ascii.eqb_refl.
Qed.

Lemma subst_by_ext (m1 m2 : string → option (nat * string)) c (k : nat) :
  (∀ t, m1 t = m2 t) → subst_by m1 c k = subst_by m2 c k.
Proof.
  intros H. revert k. induction c as [|x c IH]; intros [|k]; simpl;
    rewrite ?H, ?IH; try done.
  - destruct (m2 (String x c)) as [[[|n] new]|]; by rewrite ?IH.
Qed.

Lemma sub_init c :
  sub init_pattern init_replacement c
  = replace c init_literal (init_literal +:+ init_replacement_tail).
Proof.
  unfold sub, replace. apply subst_by_ext. intros t.
  rewrite match_here_init. by destruct (startswith t init_literal).
Qed.

Lemma patch_tempradio_state_text w :
  fst (patch_tempradio_state w)
  = if contains tempradio_marker (fst w) then fst w
    else replace (fst w) init_literal
           (init_literal +:+ init_replacement_tail).
Proof.
  destruct w as [c a]. unfold patch_tempradio_state.
  fold tempradio_marker. simpl. destruct (contains _ c); [done|].
  simpl. apply sub_init.
Qed.

(** PATCH 8. *)
Lemma patch_board_routing_text w :
  fst (patch_board_routing w)
  = if contains board_marker (fst w) then fst w
    else if contains old_ver_routing (fst w)
    then replace (fst w) old_ver_routing new_ver_routing else fst w.
Proof.
  destruct w as [c a]. unfold patch_board_routing.
  change ("command == " +:+ q "board") with board_marker. simpl.
  by repeat case_match.
Qed.

(** PATCH 9 leaves the text as it is or inserts the methods in front of
    a line feed. *)
Lemma patch_stats_methods_text w :
  fst (patch_stats_methods w) = fst w
  ∨ contains stats_marker (fst w) = false
    ∧ ∃ a b, fst w = a +:+ b ∧ startswith b nl = true
             ∧ fst (patch_stats_methods w) = a +:+ stats_methods +:+ b.
Proof.
  destruct w as [c l]. unfold patch_stats_methods. fold stats_marker.
  simpl. destruct (contains stats_marker c) eqn:Em; [by left|]. simpl.
  destruct (0 <? rfind _ _)%Z; [|by left].
  destruct (0 <? find_at _ _ _)%Z eqn:En; [|by left].
  right. split; [done|]. apply Z.ltb_lt in En.
  set (k := Z.to_nat (find_at c nl _)) in *.
  exists (take_str k c), (drop_str k c). split; [by rewrite take_drop_str|].
  split; [|done]. by apply find_at_found.
Qed.


End Patches.
Import Patcher Occur PatchFacts.

Section Settling.
Implicit Types (c g x old new label : string) (w : work).

Lemma patch_replace_absent x old new label w :
  old ≠ "" → touches x new = false →
  contains x (fst w) = false →
  contains x (fst (patch_replace old new label w)) = false.
Proof.
  intros Ho Ht Hx. rewrite patch_replace_text.
  destruct (contains old (fst w)); [by apply replace_absent|done].
Qed.

Lemma patch_replace_present g old new label w :
  old ≠ "" → touches g old = false →
  contains g (fst w) = true →
  contains g (fst (patch_replace old new label w)) = true.
Proof.
  intros Ho Ht Hg. rewrite patch_replace_text.
  destruct (contains old (fst w)); [by apply replace_present|done].
Qed.

Lemma patch_replace_gone old new label w :
  old ≠ "" → touches old new = false →
  contains old (fst (patch_replace old new label w)) = false.
Proof.
  intros Ho Ht. rewrite patch_replace_text.
  destruct (contains old (fst w)) eqn:E; [by apply replace_gone|done].
Qed.

Lemma patch_board_absent x w :
  touches x new_ver_routing = false →
  contains x (fst w) = false →
  contains x (fst (patch_board_routing w)) = false.
Proof.
  intros Ht Hx. rewrite patch_board_routing_text.
  repeat case_match; try done. by apply replace_absent.
Qed.

Lemma patch_board_present g w :
  touches g old_ver_routing = false →
  contains g (fst w) = true →
  contains g (fst (patch_board_routing w)) = true.
Proof.
  intros Ht Hg. rewrite patch_board_routing_text.
  repeat case_match; try done. by apply replace_present.
Qed.

Lemma patch_stats_absent x w :
  touches x stats_methods = false →
  contains x (fst w) = false →
  contains x (fst (patch_stats_methods w)) = false.
Proof.
  intros Ht Hx.
  destruct (patch_stats_methods_text w) as [->|(_ & a & b & E & _ & ->)];
    [done|].
  rewrite E in Hx. by apply insert_absent.
Qed.

Lemma patch_stats_present g w :
  has_char "010" g = false →
  contains g (fst w) = true →
  contains g (fst (patch_stats_methods w)) = true.
Proof.
  intros Hn Hg.
  destruct (patch_stats_methods_text w) as [->|(_ & a & b & E & Hb & ->)];
    [done|].
  rewrite E in Hg. by apply insert_present with "010"%char.
Qed.

Lemma patch_stats_methods_on_text c a :
  fst (patch_stats_methods (c, a)) = on_text patch_stats_methods c.
Proof.
  unfold on_text, patch_stats_methods. by repeat case_match.
Qed.

Lemma patch_stats_methods_twice w :
  on_text patch_stats_methods (fst (patch_stats_methods w))
  = fst (patch_stats_methods w).
Proof.
  destruct (patch_stats_methods_text w) as [E|(_ & a & b & _ & _ & E)].
  - rewrite E. destruct w as [c l]. simpl.
    by rewrite <- (patch_stats_methods_on_text c l).
  - rewrite E. unfold on_text, patch_stats_methods. fold stats_marker.
    replace (contains stats_marker _) with true; [done|].
    symmetry. apply contains_spec. apply occurs_app_r, occurs_app_l.
    apply contains_spec. vm_compute. reflexivity.
Qed.

Ltac nonempty := discriminate.
Ltac table := vm_compute; reflexivity.

(** After one run the patches 2 to 9 find nothing more to do. *)
Lemma settled_patched c : settled (patched c).
Proof.
  unfold patched, patch_content.
  generalize (patch_imports (c, [])). intros w.
  unfold settled. repeat split.
  - assert (contains tempradio_marker (fst (patch_tempradio_state w)) = true
            ∨ contains init_literal (fst (patch_tempradio_state w)) = false)
      as [H|H].
    { rewrite patch_tempradio_state_text.
      destruct (contains tempradio_marker (fst w)) eqn:Em; [by left|].
      destruct (contains init_literal (fst w)) eqn:El.
      - left. apply replace_brings; [nonempty|table|done].
      - right. rewrite replace_same; [done|nonempty|done]. }
    + left. apply patch_stats_present; [table|].
      apply patch_board_present; [table|].
      do 5 (apply patch_replace_present; [nonempty|table|]). done.
    + right. apply patch_stats_absent; [table|].
      apply patch_board_absent; [table|].
      do 5 (apply patch_replace_absent; [nonempty|table|]). done.
  - apply patch_stats_absent; [table|].
    apply patch_board_absent; [table|].
    do 4 (apply patch_replace_absent; [nonempty|table|]).
    apply patch_replace_gone; [nonempty|table].
  - apply patch_stats_absent; [table|].
    apply patch_board_absent; [table|].
    do 3 (apply patch_replace_absent; [nonempty|table|]).
    apply patch_replace_gone; [nonempty|table].
  - apply patch_stats_absent; [table|].
    apply patch_board_absent; [table|].
    do 2 (apply patch_replace_absent; [nonempty|table|]).
    apply patch_replace_gone; [nonempty|table].
  - apply patch_stats_absent; [table|].
    apply patch_board_absent; [table|].
    do 1 (apply patch_replace_absent; [nonempty|table|]).
    apply patch_replace_gone; [nonempty|table].
  - apply patch_stats_absent; [table|].
    apply patch_board_absent; [table|].
    apply patch_replace_gone; [nonempty|table].
  - match goal with
    | |- context [patch_board_routing ?v] => generalize v
    end.
    intros v.
    assert (contains board_marker (fst (patch_board_routing v)) = true
            ∨ contains old_ver_routing (fst (patch_board_routing v)) = false)
      as [H|H].
    { rewrite patch_board_routing_text.
      destruct (contains board_marker (fst v)) eqn:Em; [by left|].
      destruct (contains old_ver_routing (fst v)) eqn:El; [|by right].
      left. apply replace_brings; [nonempty|table|done]. }
    + left. by apply patch_stats_present; [table|].
    + right. by apply patch_stats_absent; [table|].
  - apply patch_stats_methods_twice.
Qed.

(** On a settled text that PATCH 1 leaves alone, a run changes nothing. *)
Lemma patched_settled c :
  settled c → on_text patch_imports c = c → patched c = c.
Proof.
  intros (H2 & H3 & H4 & H5 & H6 & H7 & H8 & H9) H1.
  unfold patched, patch_content. unfold on_text in H1.
  generalize dependent (patch_imports (c, [])). intros w1 E1.
  set (w2 := patch_tempradio_state w1).
  assert (fst w2 = c) as E2.
  { unfold w2. rewrite patch_tempradio_state_text, E1.
    destruct H2 as [->| H2]; [done|].
    destruct (contains tempradio_marker c); [done|].
    apply replace_same; [nonempty|done]. }
  set (w3 := patch_replace old_reboot _ _ w2).
  assert (fst w3 = c) as E3.
  { unfold w3. by rewrite patch_replace_text, E2, H3. }
  set (w4 := patch_replace old_clear_stats _ _ w3).
  assert (fst w4 = c) as E4.
  { unfold w4. by rewrite patch_replace_text, E3, H4. }
  set (w5 := patch_replace old_neighbor_remove _ _ w4).
  assert (fst w5 = c) as E5.
  { unfold w5. by rewrite patch_replace_text, E4, H5. }
  set (w6 := patch_replace old_tempradio _ _ w5).
  assert (fst w6 = c) as E6.
  { unfold w6. by rewrite patch_replace_text, E5, H6. }
  set (w7 := patch_replace old_stats_routing _ _ w6).
  assert (fst w7 = c) as E7.
  { unfold w7. by rewrite patch_replace_text, E6, H7. }
  set (w8 := patch_board_routing w7).
  assert (fst w8 = c) as E8.
  { unfold w8. rewrite patch_board_routing_text, E7.
    destruct H8 as [->| ->]; [done|]. by destruct (contains board_marker c). }
  destruct w8 as [c8 l8]. simpl in E8. subst c8.
  by rewrite patch_stats_methods_on_text.
Qed.

Lemma patch_file_fixed c :
  patched c = c → patch_file (Some c) = (Some c, true, NoChanges).
Proof.
  unfold patched, patch_file. destruct (patch_content c) as [c' l].
  simpl. intros ->. by rewrite String.eqb_refl.
Qed.

End Settling.
Import ReShape PrefsFacts.

Lemma array_size_int (m : mobj) :
  matches field_pattern (m_text m) [] (m_caps m) →
  (if truthy (group 3 (m_caps m)) then int <$> group 3 (m_caps m) else None)
  = int <$> group 3 (m_caps m).
Proof.
  intros (_ & _ & _ & H)%field_match_shape.
  destruct (group 3 (m_caps m)) as [[|a n]|]; [|done..].
  by destruct H.
Qed.

Lemma fold_add_field_last (ms : list mobj) (name : string) :
  Forall (λ m, matches field_pattern (m_text m) [] (m_caps m)) ms →
  fold_left add_field ms ∅ !! name
  = (λ m, {| f_type := group_str 1 m;
             array_size := int <$> group 3 (m_caps m) |})
    <$> last (filter (λ m, declares name m = true) ms).
Proof.
  induction ms as [|m ms IH] using rev_ind; intros Hms.
  { simpl. by rewrite lookup_empty. }
  apply Forall_app in Hms as [Hms Hm].
  apply Forall_cons_1 in Hm as [Hm _].
  rewrite fold_left_app, filter_app. simpl. unfold add_field at 1.
  rewrite array_size_int by done.
  rewrite filter_cons, filter_nil.
  destruct (declares name m) eqn:D; unfold declares in D.
  - apply String.eqb_eq in D. rewrite decide_True by done.
    rewrite last_snoc. simpl. by rewrite <- D, lookup_insert_eq.
  - apply String.eqb_neq in D. rewrite decide_False by done.
    rewrite app_nil_r. rewrite lookup_insert_ne by done. by apply IH.
Qed.

(** X14.  When the struct declares a name more than once, the mapping
    keeps the last declaration: the entry under a name has the type of
    the last match of that name and, as its array size, the number in
    that match's brackets ([None] without brackets); a name no match
    declares has no entry. *)
Theorem prefs_last_wins (header_source name : string) :
  parse_prefs_struct header_source !! name
  = (λ m, {| f_type := group_str 1 m;
             array_size := int <$> group 3 (m_caps m) |})
    <$> last (filter (λ m, declares name m = true)
                (field_matches header_source)).
Proof.
  unfold parse_prefs_struct, field_matches.
  destruct (search struct_pattern header_source) as [sm|]; [|done].
  apply fold_add_field_last. apply Forall_forall. intros m Hm.
  by apply finditer_go_sound in Hm.
Qed.

(** The second declaration of [rx_delay] is the one kept. *)
Example prefs_twice_declared :
  parse_prefs_struct twice_declared !! "rx_delay"
  = Some (Field "uint8_t" (Some 4%N)).
Proof. vm_compute. reflexivity. Qed.
Import Patcher Occur PatchFacts.

(** X15.  Once a run has left a text that imports [subprocess], a second
    run finds nothing to do: it computes the same text and reports that
    no changes are needed. *)
Theorem second_run_no_changes (c : string) :
  contains "import subprocess" (patched c) = true →
  patched (patched c) = patched c
  ∧ patch_file (Some (patched c)) = (Some (patched c), true, NoChanges).
Proof.
  intros H.
  assert (patched (patched c) = patched c) as E.
  { apply patched_settled; [apply settled_patched|].
    unfold on_text. by rewrite patch_imports_skip. }
  split; [done|]. by apply patch_file_fixed.
Qed.

Lemma second_run_no_changes_witness :
  contains "import subprocess" (patched mesh_cli_sample) = true
  ∧ patched (patched mesh_cli_sample) = patched mesh_cli_sample
  ∧ patch_file (Some (patched mesh_cli_sample))
    = (Some (patched mesh_cli_sample), true, NoChanges).
Proof.
  split; [vm_compute; reflexivity|].
  apply (second_run_no_changes mesh_cli_sample). vm_compute. reflexivity.
Defined.



Import Patcher Occur PatchFacts.

(** X18.  After a run the text holds none of the five old texts the
    patches 3 to 7 replace; where the assignment of [repeater_config] is
    left, the tempradio state is there too, and where the old routing
    of the version command is left, so is the routing of the board
    command. *)
Theorem old_code_replaced (c : string) :
  Forall (λ old, contains old (patched c) = false) old_bodies
  ∧ (contains init_literal (patched c) = true
     → contains tempradio_marker (patched c) = true)
  ∧ (contains old_ver_routing (patched c) = true
     → contains board_marker (patched c) = true).
Proof.
  destruct (settled_patched c) as (H2 & H3 & H4 & H5 & H6 & H7 & H8 & _).
  split; [by repeat apply Forall_cons_2; try apply Forall_nil_2|].
  split.
  - intros H. destruct H2 as [H2|H2]; [done|congruence].
  - intros H. destruct H8 as [H8|H8]; [done|congruence].
Qed.
